(** * Register-level protocol of the 4x4 matrix-multiplier control software

    A shallow embedding of [src/software/source.c]: the address composer, the
    two operand loaders and [main], over explicit machine integers, with the
    register accesses and the console output of a run recorded as a trace of
    events, followed by the properties of the protocol proved of it. *)

From Stdlib Require Import ZArith List Lia String Bool.
Import ListNotations.
Local Open Scope Z_scope.

(** * The program *)

(** ** Machine integers

    C's unsigned types are [Z] with the wrap-around written out. *)

Definition wrap (bits x : Z) : Z := x mod 2 ^ bits.

Definition to_uint8 (x : Z) : Z := wrap 8 x.
Definition to_uint32 (x : Z) : Z := wrap 32 x.
Definition to_uint64 (x : Z) : Z := wrap 64 x.

(** ** Hardware parameters and memory map (the [#define]s)

    [M], [K] and [N] are [dim_M], [dim_K] and [dim_N] here. *)

Definition DATA_WIDTH : Z := 16.
Definition dim_M : Z := 4.
Definition dim_K : Z := 4.
Definition dim_N : Z := 4.
Definition N_BANKS : Z := 4.
Definition MATRIX_DIM : Z := 4.
Definition BRAM_DATA_WIDTH : Z := N_BANKS * DATA_WIDTH.
Definition ELEMENT_INDEX_BITS : Z := 2.
Definition ADDR_BITS : Z := 4.

Definition ADDR_CONTROL_OFFSET : Z := 0x00.
Definition ADDR_STATUS_OFFSET : Z := 0x08.
Definition ADDR_C_ADDR_OFFSET : Z := 0x10.
Definition ADDR_C_DATA_OFFSET : Z := 0x18.
Definition ADDR_A_ADDR_OFFSET : Z := 0x20.
Definition ADDR_A_DATA_OFFSET : Z := 0x28.
Definition ADDR_B_ADDR_OFFSET : Z := 0x30.
Definition ADDR_B_DATA_OFFSET : Z := 0x38.

(** ** Matrices

    A [uint16_t m[4][4]] is the list of its rows; [m[r][c]] is [elem m r c]. *)

Definition matrix : Type := list (list Z).

Definition elem (m : matrix) (r c : Z) : Z :=
  nth (Z.to_nat c) (nth (Z.to_nat r) m []) 0.

Definition matrix_A : matrix :=
  [ [ 1;  2;  3;  4];
    [ 5;  6;  7;  8];
    [ 9; 10; 11; 12];
    [13; 14; 15; 16] ].

Definition matrix_B : matrix :=
  [ [16; 15; 14; 13];
    [12; 11; 10;  9];
    [ 8;  7;  6;  5];
    [ 4;  3;  2;  1] ].

(** ** Counted loops

    [for (i = lo; i < hi; i++) body] over a loop state. *)

Definition range (lo hi : Z) : list Z :=
  map (fun k => lo + Z.of_nat k) (seq 0 (Z.to_nat (hi - lo))).

Definition for_range {S : Type} (lo hi : Z) (body : Z -> S -> S) (s : S) : S :=
  fold_left (fun s i => body i s) (range lo hi) s.

(** ** The address composer

    Both arguments are [uint8_t]; [bank_idx << ELEMENT_INDEX_BITS] is
    computed as an [int] and converted to [uint64_t] by the [|=]. *)

Definition compose_bram_address (bank_idx element_idx : Z) : Z :=
  let address := 0 in
  let address := to_uint64 (Z.lor address element_idx) in
  let address :=
    to_uint64 (Z.lor address (to_uint64 (Z.shiftl bank_idx ELEMENT_INDEX_BITS))) in
  address.

(** ** The loaders' packing loops

    Each loop carries [(addr_buffer, data_buffer)]; the body is one
    iteration, the loop all four from the two buffers at 0. *)

Definition load_matrix_A_column_body (matrix_A : matrix) (col_idx : Z)
    (row_idx : Z) (bufs : Z * Z) : Z * Z :=
  let '(addr_buffer, data_buffer) := bufs in
  let data := to_uint64 (elem matrix_A row_idx col_idx) in
  let bram_address_to_write := compose_bram_address row_idx col_idx in
  let addr_buffer :=
    Z.lor addr_buffer
          (to_uint64 (Z.shiftl bram_address_to_write (row_idx * ADDR_BITS))) in
  let data_buffer :=
    Z.lor data_buffer (to_uint64 (Z.shiftl data (row_idx * 16))) in
  (addr_buffer, data_buffer).

Definition load_matrix_A_column_loop (matrix_A : matrix) (col_idx : Z) : Z * Z :=
  let data_buffer := 0 in
  let addr_buffer := 0 in
  for_range 0 MATRIX_DIM (load_matrix_A_column_body matrix_A col_idx)
            (addr_buffer, data_buffer).

Definition load_matrix_B_row_body (matrix_A : matrix) (row_idx : Z)
    (col_idx : Z) (bufs : Z * Z) : Z * Z :=
  let '(addr_buffer, data_buffer) := bufs in
  let data := to_uint64 (elem matrix_A row_idx col_idx) in
  let bram_address_to_write := compose_bram_address col_idx row_idx in
  let addr_buffer :=
    Z.lor addr_buffer
          (to_uint64 (Z.shiftl bram_address_to_write (col_idx * ADDR_BITS))) in
  let data_buffer :=
    Z.lor data_buffer (to_uint64 (Z.shiftl data (col_idx * 16))) in
  (addr_buffer, data_buffer).

Definition load_matrix_B_row_loop (matrix_A : matrix) (row_idx : Z) : Z * Z :=
  let data_buffer := 0 in
  let addr_buffer := 0 in
  for_range 0 MATRIX_DIM (load_matrix_B_row_body matrix_A row_idx)
            (addr_buffer, data_buffer).

(** ** Register accesses and console output *)

(** The width of a register access: that of the type pointed to. *)
Inductive width : Type := W32 | W64.

Definition bits (w : width) : Z :=
  match w with W32 => 32 | W64 => 64 end.

Definition uint64_t : width := W64.

(** Modelled from the spec: [alt_u32] comes from alt_types.h, which is not
    among the sources. It is the unsigned 32-bit integer: the source reads the
    C matrix through it "as 32-bit values", and the register table of the spec
    gives the C registers, accessed through [alt_u32] pointers alone, as
    32-bit. *)
Definition alt_u32 : width := W32.

(** What the program does to the outside world: a store to or a load from a
    device register (the access width, the address and the value stored or
    returned), or a [printf] (the format, its escapes kept as the source
    spells them, and the arguments). *)
Inductive event : Type :=
| Store (w : width) (addr value : Z)
| Load (w : width) (addr value : Z)
| Printf (fmt : string) (args : list Z).

(** The inttypes.h conversion for [uint64_t], as spelled on a 32-bit target. *)
Definition PRIu64 : string := "llu".

Section Controller.

(** The device behind the register interface: a state, what a load returns
    and leaves, and what a store leaves. [MM_BASE] is the base address of the
    device ([MM_IP_0_BASE] of system.h). *)
Variable D : Type.
Variable dev_load : width -> Z -> D -> Z * D.
Variable dev_store : width -> Z -> Z -> D -> D.
Variable MM_BASE : Z.

(** What a computation leaves behind: its result ([None]: the loop budget
    ran out while still looping), the device state reached and the events
    emitted, in program order. *)
Record outcome (A : Type) : Type := Outcome {
  result : option A;
  final : D;
  trace : list event
}.
Arguments Outcome {A}.
Arguments result {A}.
Arguments final {A}.
Arguments trace {A}.

Definition io (A : Type) : Type := D -> outcome A.

Definition ret {A : Type} (a : A) : io A := fun d => Outcome (Some a) d [].

Definition bind {A B : Type} (m : io A) (f : A -> io B) : io B :=
  fun d =>
    let o := m d in
    match result o with
    | Some a =>
        let o' := f a (final o) in
        Outcome (result o') (final o') (trace o ++ trace o')
    | None => Outcome None (final o) (trace o)
    end.

Definition out_of_fuel {A : Type} : io A := fun d => Outcome None d [].

Notation "x <- m ;; k" := (bind m (fun x => k))
  (at level 61, m at next level, right associativity).
Notation "m ;; k" := (bind m (fun _ => k))
  (at level 61, right associativity).

(** [*ptr = v] and [*ptr] through a volatile pointer to the given type. *)
Definition store (w : width) (ptr v : Z) : io unit :=
  fun d =>
    Outcome (Some tt) (dev_store w ptr (wrap (bits w) v) d)
            [Store w ptr (wrap (bits w) v)].

Definition load (w : width) (ptr : Z) : io Z :=
  fun d =>
    let v := wrap (bits w) (fst (dev_load w ptr d)) in
    Outcome (Some v) (snd (dev_load w ptr d)) [Load w ptr v].

Definition printf (fmt : string) (args : list Z) : io unit :=
  fun d => Outcome (Some tt) d [Printf fmt args].

Fixpoint for_each (l : list Z) (body : Z -> io unit) : io unit :=
  match l with
  | [] => ret tt
  | i :: l' => body i ;; for_each l' body
  end.

(** [for (i = lo; i < hi; i++) body] with effects. *)
Definition for_io (lo hi : Z) (body : Z -> io unit) : io unit :=
  for_each (range lo hi) body.

(** [do body while (again)], for at most [fuel] rounds: the value of the
    last run of [body]. *)
Fixpoint do_while {A : Type} (fuel : nat) (body : io A) (again : A -> bool) : io A :=
  match fuel with
  | O => out_of_fuel
  | S fuel' =>
      a <- body ;;
      if again a then do_while fuel' body again else ret a
  end.

(** ** The loaders *)

Definition load_matrix_A_column (addr data : Z) (matrix_A : matrix) (col_idx : Z)
    : io unit :=
  if MATRIX_DIM <=? col_idx then
    printf "Error: Column index %u out of bounds for Matrix A.\n" [col_idx]
  else
    printf "Loading column %u of Matrix A into BRAM...\n" [col_idx] ;;
    let '(addr_buffer, data_buffer) := load_matrix_A_column_loop matrix_A col_idx in
    store uint64_t addr addr_buffer ;;
    store uint64_t data data_buffer ;;
    v <- load uint64_t addr ;;
    printf (" Bram address : %" ++ PRIu64 ++ "\n") [v] ;;
    v <- load uint64_t data ;;
    printf (" Bram data : %" ++ PRIu64 ++ "\n") [v] ;;
    printf "Finish loading col %u of Matrix A into BRAM...\n" [col_idx] ;;
    printf "------------------------------------------------------------- \n" [].

Definition load_matrix_B_row (addr data : Z) (matrix_A : matrix) (row_idx : Z)
    : io unit :=
  if MATRIX_DIM <=? row_idx then
    printf "Error: Column index %u out of bounds for Matrix A.\n" [row_idx]
  else
    printf "Loading row %u of Matrix B into BRAM...\n" [row_idx] ;;
    let '(addr_buffer, data_buffer) := load_matrix_B_row_loop matrix_A row_idx in
    store uint64_t addr addr_buffer ;;
    store uint64_t data data_buffer ;;
    v <- load uint64_t addr ;;
    printf (" Bram address : %" ++ PRIu64 ++ "\n") [v] ;;
    v <- load uint64_t data ;;
    printf (" Bram data : %" ++ PRIu64 ++ "\n") [v] ;;
    printf " Finish loading row %u of Matrix B into BRAM...\n" [row_idx] ;;
    printf "------------------------------------------------------------- \n" [].

(** ** [main]

    Its four loops first, then the function; [fuel] bounds the rounds of the
    completion poll. *)

Definition main_load_A (addr_reg_ptr_A data_reg_ptr_A : Z) : io unit :=
  for_io 0 dim_K (fun col =>
    load_matrix_A_column addr_reg_ptr_A data_reg_ptr_A matrix_A (to_uint8 col)).

Definition main_load_B (addr_reg_ptr_B data_reg_ptr_B : Z) : io unit :=
  for_io 0 dim_K (fun row =>
    load_matrix_B_row addr_reg_ptr_B data_reg_ptr_B matrix_B (to_uint8 row)).

Definition main_poll (fuel : nat) (status_reg_ptr : Z) : io Z :=
  do_while fuel (load alt_u32 status_reg_ptr)
           (fun status_reg => Z.land status_reg 0x1 =? 0).

Definition main_read_results (c_addr_reg_ptr c_data_reg_ptr : Z) : io unit :=
  for_io 0 dim_M (fun row =>
    for_io 0 dim_N (fun col =>
      let c_bram_addr := to_uint32 (row * dim_N + col) in
      store alt_u32 c_addr_reg_ptr c_bram_addr ;;
      result_val <- load alt_u32 c_data_reg_ptr ;;
      printf "C[%d][%d] = %u (0x%X)\n"
             [row; col; to_uint32 result_val; to_uint32 result_val])).

Definition main (fuel : nat) : io Z :=
  let addr_reg_ptr_A := MM_BASE + ADDR_A_ADDR_OFFSET in
  let data_reg_ptr_A := MM_BASE + ADDR_A_DATA_OFFSET in
  let addr_reg_ptr_B := MM_BASE + ADDR_B_ADDR_OFFSET in
  let data_reg_ptr_B := MM_BASE + ADDR_B_DATA_OFFSET in
  printf "Nios II 4x4 Matrix Multiplier Control Software Starting...\n" [] ;;
  printf "------------------------------------------------------------- \n" [] ;;
  printf "Loading matrix A...\n" [] ;;
  main_load_A addr_reg_ptr_A data_reg_ptr_A ;;
  printf "--------------------------------------------------------------\n" [] ;;
  printf "Loading matrix B...\n" [] ;;
  main_load_B addr_reg_ptr_B data_reg_ptr_B ;;
  let control_reg_ptr := MM_BASE + ADDR_CONTROL_OFFSET in
  let status_reg_ptr := MM_BASE + ADDR_STATUS_OFFSET in
  printf "\nStarting multiplication...\n" [] ;;
  store alt_u32 control_reg_ptr 0x3 ;;
  printf "Waiting for multiplication to finish...\n" [] ;;
  status_reg <- main_poll fuel status_reg_ptr ;;
  printf "Multiplication finished!\n" [] ;;
  printf "\nReading results from C matrix BRAM...\n" [] ;;
  let c_addr_reg_ptr := MM_BASE + ADDR_C_ADDR_OFFSET in
  let c_data_reg_ptr := MM_BASE + ADDR_C_DATA_OFFSET in
  main_read_results c_addr_reg_ptr c_data_reg_ptr ;;
  printf "\nNios II application finished.\n" [] ;;
  ret 0.

(** * The vocabulary of the properties *)

(** ** Operands and packed words *)

Definition is_uint16 (x : Z) : bool := (0 <=? x) && (x <? 2 ^ 16).

Definition row_ok (r : list Z) : bool :=
  (List.length r =? 4)%nat && forallb is_uint16 r.

(** A well-formed operand: four rows of four 16-bit elements. *)
Definition matrix_ok (m : matrix) : bool :=
  (List.length m =? 4)%nat && forallb row_ok m.

(** The matrix whose rows are the columns of [m] (4x4). *)
Definition transpose (m : matrix) : matrix :=
  map (fun c => map (fun r => elem m r c) (range 0 MATRIX_DIM)) (range 0 MATRIX_DIM).

(** Reading a packed word back: the [w]-bit field of [word] at [slot]. *)
Definition field (w : Z) (word : Z) (slot : Z) : Z :=
  Z.land (Z.shiftr word (slot * w)) (Z.ones w).

(** Four fields of [w] bits, packed from slot 0 up. *)
Definition packed (w x0 x1 x2 x3 : Z) : Z :=
  x0 + x1 * 2 ^ w + x2 * 2 ^ (2 * w) + x3 * 2 ^ (3 * w).

Definition address_fields (i : Z) : Z :=
  packed ADDR_BITS (compose_bram_address 0 i) (compose_bram_address 1 i)
         (compose_bram_address 2 i) (compose_bram_address 3 i).

Definition column_word (m : matrix) (c : Z) : Z :=
  packed 16 (elem m 0 c) (elem m 1 c) (elem m 2 c) (elem m 3 c).

Definition row_word (m : matrix) (r : Z) : Z :=
  packed 16 (elem m r 0) (elem m r 1) (elem m r 2) (elem m r 3).

(** ** Traces *)

Definition is_mmio (e : event) : bool :=
  match e with Printf _ _ => false | _ => true end.

Definition is_store (e : event) : bool :=
  match e with Store _ _ _ => true | _ => false end.

Definition is_store_to (a : Z) (e : event) : bool :=
  match e with Store _ addr _ => addr =? a | _ => false end.

Definition accesses (a : Z) (e : event) : bool :=
  match e with Store _ addr _ | Load _ addr _ => addr =? a | Printf _ _ => false end.

(** The event is an access to one of the registers [regs]. *)
Definition at_register (regs : list Z) (e : event) : Prop :=
  match e with
  | Store _ a _ | Load _ a _ => In a regs
  | Printf _ _ => False
  end.

(** The register accesses of a trace, and its stores. *)
Definition mmio (tr : list event) : list event := filter is_mmio tr.
Definition stores (tr : list event) : list event := filter is_store tr.

(** A computation that never runs out of budget. *)
Definition total {A : Type} (m : io A) : Prop := forall d, result (m d) <> None.

(** ** The device's side of the poll *)

(** What the device answers to [n] successive loads of the register at
    [ptr], from state [d], and the state it is in afterwards. *)
Fixpoint answers (n : nat) (ptr : Z) (d : D) : list Z :=
  match n with
  | O => []
  | S n' =>
      wrap (bits alt_u32) (fst (dev_load alt_u32 ptr d))
      :: answers n' ptr (snd (dev_load alt_u32 ptr d))
  end.

Fixpoint after_answers (n : nat) (ptr : Z) (d : D) : D :=
  match n with
  | O => d
  | S n' => after_answers n' ptr (snd (dev_load alt_u32 ptr d))
  end.

Definition done_bit (status_reg : Z) : bool := Z.testbit status_reg 0.

(** ** What [main] is to store and read back *)

(** The stores of the two load phases: one address word and one data word
    per column of A, then per row of B, whatever the device does. *)
Definition column_stores (p q : Z) (col : Z) : list event :=
  [Store uint64_t p (fst (load_matrix_A_column_loop matrix_A col));
   Store uint64_t q (snd (load_matrix_A_column_loop matrix_A col))].

Definition row_stores (p q : Z) (row : Z) : list event :=
  [Store uint64_t p (fst (load_matrix_B_row_loop matrix_B row));
   Store uint64_t q (snd (load_matrix_B_row_loop matrix_B row))].

(** One round trip of the read-back: the index goes to the C-address
    register, then the C-data register is loaded. *)
Definition round_trip (c_addr_reg_ptr c_data_reg_ptr : Z) (iv : Z * Z) : list event :=
  [Store alt_u32 c_addr_reg_ptr (fst iv); Load alt_u32 c_data_reg_ptr (snd iv)].

(** The output positions in the order of the two nested loops. *)
Definition row_major : list Z :=
  flat_map (fun row => map (fun col => row * dim_N + col) (range 0 dim_N))
           (range 0 dim_M).

(** ** The runs of [main] as a whole *)

(** The device state in which the poll begins: after the two load phases
    and the store of the command. *)
Definition poll_start (d : D) : D :=
  dev_store alt_u32 (MM_BASE + ADDR_CONTROL_OFFSET) 0x3
    (final (main_load_B (MM_BASE + ADDR_B_ADDR_OFFSET) (MM_BASE + ADDR_B_DATA_OFFSET)
       (final (main_load_A (MM_BASE + ADDR_A_ADDR_OFFSET)
                           (MM_BASE + ADDR_A_DATA_OFFSET) d)))).

(** A line of the log that reports an error. *)
Definition is_error_report (e : event) : bool :=
  match e with Printf fmt _ => prefix "Error" fmt | _ => false end.

(** One position of the read-back with its line of the log: the index
    stored, the value loaded, and the value printed under the row and the
    column of the index. *)
Definition result_line (c_addr_reg_ptr c_data_reg_ptr : Z) (iv : Z * Z) : list event :=
  [Store alt_u32 c_addr_reg_ptr (fst iv);
   Load alt_u32 c_data_reg_ptr (snd iv);
   Printf "C[%d][%d] = %u (0x%X)\n"
          [fst iv / dim_N; fst iv mod dim_N; snd iv; snd iv]].

(** The operand registers, accessed as 64-bit words. *)
Definition operand_registers : list Z :=
  [MM_BASE + ADDR_A_ADDR_OFFSET; MM_BASE + ADDR_A_DATA_OFFSET;
   MM_BASE + ADDR_B_ADDR_OFFSET; MM_BASE + ADDR_B_DATA_OFFSET].

(** The ways a register is used: the operand registers are stored to and
    loaded from as 64-bit words; the control and the C-address register are
    only stored to, the status and the C-data register only loaded from, all
    four as 32-bit words; the control register takes the command 0x3 and the
    C-address register an index below 16. *)
Definition register_use (e : event) : Prop :=
  match e with
  | Store w a v =>
      (w = W64 /\ In a operand_registers)
      \/ (w = W32 /\ a = MM_BASE + ADDR_CONTROL_OFFSET /\ v = 0x3)
      \/ (w = W32 /\ a = MM_BASE + ADDR_C_ADDR_OFFSET /\ 0 <= v < 16)
  | Load w a _ =>
      (w = W64 /\ In a operand_registers)
      \/ (w = W32 /\ a = MM_BASE + ADDR_STATUS_OFFSET)
      \/ (w = W32 /\ a = MM_BASE + ADDR_C_DATA_OFFSET)
  | Printf _ _ => False
  end.

(** ** Devices to run the program on

    One whose every register reads as 1 (done at the first poll), and one
    that reads as 0 for its first [n] loads and as all-ones from then on. *)

Definition ready_load (w : width) (addr : Z) (d : unit) : Z * unit := (1, d).
Definition ready_store (w : width) (addr v : Z) (d : unit) : unit := d.

Definition slow_load (w : width) (addr : Z) (n : nat) : Z * nat :=
  match n with O => (-1, O) | S n' => (0, n') end.
Definition slow_store (w : width) (addr v : Z) (n : nat) : nat := n.

(** * Properties *)

(** ** Machine arithmetic *)

Lemma wrap_small (n x : Z) : 0 <= x < 2 ^ n -> wrap n x = x.
Proof. intros H. unfold wrap. apply Z.mod_small. exact H. Qed.

Lemma wrap_range (n x : Z) : 0 <= n -> 0 <= wrap n x < 2 ^ n.
Proof.
  intros Hn. unfold wrap. apply Z.mod_pos_bound. apply Z.pow_pos_nonneg; lia.
Qed.

Lemma testbit_high (k a i : Z) :
  0 <= k -> 0 <= a < 2 ^ k -> k <= i -> Z.testbit a i = false.
Proof.
  intros Hk Ha Hi. rewrite <- (Z.mod_small a (2 ^ k)) by exact Ha.
  apply Z.mod_pow2_bits_high. lia.
Qed.

(** OR-ing a value into the bits above [k] of a word below [2^k] adds it. *)
Lemma lor_shiftl_add (a b k : Z) :
  0 <= k -> 0 <= a < 2 ^ k -> Z.lor a (Z.shiftl b k) = a + b * 2 ^ k.
Proof.
  intros Hk Ha.
  assert (Hdisj : Z.land a (Z.shiftl b k) = 0).
  { apply Z.bits_inj'. intros i Hi.
    rewrite Z.land_spec, Z.bits_0.
    destruct (Z.lt_ge_cases i k) as [Hlt | Hge].
    - rewrite (Z.shiftl_spec_low b k i Hlt). apply andb_false_r.
    - rewrite (testbit_high k a i Hk Ha Hge). reflexivity. }
  pose proof (Z.add_lor_land a (Z.shiftl b k)) as Hadd.
  rewrite Hdisj, Z.add_0_r in Hadd. rewrite Hadd.
  rewrite Z.shiftl_mul_pow2 by exact Hk. reflexivity.
Qed.

Lemma lor_range (k a b : Z) :
  0 <= k -> 0 <= a < 2 ^ k -> 0 <= b < 2 ^ k -> 0 <= Z.lor a b < 2 ^ k.
Proof.
  intros Hk Ha Hb.
  assert (Hnn : 0 <= Z.lor a b) by (apply Z.lor_nonneg; lia).
  split; [exact Hnn |].
  destruct (Z.eq_dec (Z.lor a b) 0) as [-> | Hnz].
  - apply Z.pow_pos_nonneg; lia.
  - apply Z.log2_lt_pow2; [lia |].
    rewrite Z.log2_lor by lia.
    destruct (Z.eq_dec a 0) as [-> | Ha0]; destruct (Z.eq_dec b 0) as [-> | Hb0];
      try (exfalso; apply Hnz; reflexivity).
    + rewrite Z.max_r by (apply Z.log2_nonneg). apply Z.log2_lt_pow2; lia.
    + rewrite Z.lor_0_r in *. rewrite Z.max_l by (apply Z.log2_nonneg).
      apply Z.log2_lt_pow2; lia.
    + apply Z.max_lub_lt; apply Z.log2_lt_pow2; lia.
Qed.

(** ** The address composer *)

Lemma compose_bram_address_uint8 (bank_idx element_idx : Z) :
  0 <= bank_idx < 256 -> 0 <= element_idx < 256 ->
  compose_bram_address bank_idx element_idx
  = Z.lor element_idx (Z.shiftl bank_idx 2).
Proof.
  intros Hb He. unfold compose_bram_address, to_uint64, ELEMENT_INDEX_BITS.
  rewrite Z.lor_0_l.
  assert (Hs : 0 <= Z.shiftl bank_idx 2 < 2 ^ 64).
  { rewrite Z.shiftl_mul_pow2 by lia. change (2 ^ 2) with 4.
    change (2 ^ 64) with 18446744073709551616. lia. }
  rewrite (wrap_small 64 element_idx)
    by (change (2 ^ 64) with 18446744073709551616; lia).
  rewrite (wrap_small 64 (Z.shiftl bank_idx 2)) by exact Hs.
  apply wrap_small. apply lor_range; [lia | lia | exact Hs].
Qed.

Lemma compose_bram_address_valid (bank_idx element_idx : Z) :
  0 <= bank_idx < 4 -> 0 <= element_idx < 4 ->
  compose_bram_address bank_idx element_idx = element_idx + 4 * bank_idx.
Proof.
  intros Hb He. rewrite compose_bram_address_uint8 by lia.
  rewrite lor_shiftl_add by (change (2 ^ 2) with 4; lia).
  change (2 ^ 2) with 4. lia.
Qed.

(** The composed address splits back into its two indices. *)
Lemma compose_bram_address_decode (bank_idx element_idx : Z) :
  0 <= bank_idx < 4 -> 0 <= element_idx < 4 ->
  Z.shiftr (compose_bram_address bank_idx element_idx) ELEMENT_INDEX_BITS = bank_idx
  /\ Z.land (compose_bram_address bank_idx element_idx) (Z.ones ELEMENT_INDEX_BITS)
     = element_idx.
Proof.
  intros Hb He. rewrite compose_bram_address_valid by assumption.
  unfold ELEMENT_INDEX_BITS.
  rewrite Z.shiftr_div_pow2, Z.land_ones by lia. change (2 ^ 2) with 4.
  split.
  - symmetry. apply (Z.div_unique _ 4 bank_idx element_idx); lia.
  - symmetry. apply (Z.mod_unique _ 4 bank_idx element_idx); lia.
Qed.

(** ** Packing *)

Lemma for_range_dim {S : Type} (body : Z -> S -> S) (s : S) :
  for_range 0 MATRIX_DIM body s = body 3 (body 2 (body 1 (body 0 s))).
Proof. reflexivity. Qed.

Lemma index_cases (i : Z) : 0 <= i < 4 -> i = 0 \/ i = 1 \/ i = 2 \/ i = 3.
Proof. lia. Qed.

Ltac each_index i H :=
  destruct (index_cases i H) as [-> | [-> | [-> | ->]]].

Lemma is_uint16_range (x : Z) : is_uint16 x = true -> 0 <= x < 2 ^ 16.
Proof.
  unfold is_uint16. rewrite andb_true_iff, Z.leb_le, Z.ltb_lt. tauto.
Qed.

Lemma matrix_ok_elem (m : matrix) (r c : Z) :
  matrix_ok m = true -> 0 <= r < 4 -> 0 <= c < 4 -> 0 <= elem m r c < 2 ^ 16.
Proof.
  intros Hok Hr Hc. unfold matrix_ok in Hok.
  apply andb_true_iff in Hok. destruct Hok as [Hlen Hrows].
  apply Nat.eqb_eq in Hlen. rewrite forallb_forall in Hrows.
  assert (Hrn : (Z.to_nat r < List.length m)%nat) by lia.
  pose proof (Hrows _ (nth_In m [] Hrn)) as Hrow.
  unfold row_ok in Hrow. apply andb_true_iff in Hrow.
  destruct Hrow as [Hlen' Hel]. apply Nat.eqb_eq in Hlen'.
  rewrite forallb_forall in Hel.
  apply is_uint16_range. apply Hel. unfold elem. apply nth_In. lia.
Qed.

(** One iteration of a packing loop: the field at slot [n] is free, so the
    64-bit shift loses nothing and the OR adds the new field. *)
Lemma pack_step (w n acc x : Z) :
  0 < w -> 0 <= n -> (n + 1) * w <= 64 ->
  0 <= acc < 2 ^ (n * w) -> 0 <= x < 2 ^ w ->
  Z.lor acc (to_uint64 (Z.shiftl x (n * w))) = acc + x * 2 ^ (n * w)
  /\ 0 <= acc + x * 2 ^ (n * w) < 2 ^ ((n + 1) * w).
Proof.
  intros Hw Hn Hfit Hacc Hx.
  assert (Hnw : 0 <= n * w) by nia.
  assert (Hpow : 2 ^ ((n + 1) * w) = 2 ^ w * 2 ^ (n * w)).
  { rewrite <- Z.pow_add_r by lia. f_equal. lia. }
  assert (Hp : 0 < 2 ^ (n * w)) by (apply Z.pow_pos_nonneg; lia).
  assert (Hsum : 0 <= acc + x * 2 ^ (n * w) < 2 ^ ((n + 1) * w)).
  { rewrite Hpow. nia. }
  split; [| exact Hsum].
  unfold to_uint64. rewrite wrap_small.
  - apply lor_shiftl_add; assumption.
  - rewrite Z.shiftl_mul_pow2 by exact Hnw.
    assert (2 ^ ((n + 1) * w) <= 2 ^ 64) by (apply Z.pow_le_mono_r; lia).
    nia.
Qed.

Lemma pack_four (w x0 x1 x2 x3 : Z) :
  0 < w <= 16 ->
  0 <= x0 < 2 ^ w -> 0 <= x1 < 2 ^ w -> 0 <= x2 < 2 ^ w -> 0 <= x3 < 2 ^ w ->
  Z.lor (Z.lor (Z.lor (Z.lor 0 (to_uint64 (Z.shiftl x0 (0 * w))))
                      (to_uint64 (Z.shiftl x1 (1 * w))))
               (to_uint64 (Z.shiftl x2 (2 * w))))
        (to_uint64 (Z.shiftl x3 (3 * w)))
  = packed w x0 x1 x2 x3
  /\ 0 <= packed w x0 x1 x2 x3 < 2 ^ (4 * w).
Proof.
  intros Hw H0 H1 H2 H3. unfold packed.
  destruct (pack_step w 0 0 x0) as [E0 R0]; try lia.
  rewrite E0. clear E0. set (a0 := 0 + x0 * 2 ^ (0 * w)) in *.
  change ((0 + 1) * w) with (1 * w) in R0.
  destruct (pack_step w 1 a0 x1) as [E1 R1]; try lia.
  rewrite E1. clear E1. set (a1 := a0 + x1 * 2 ^ (1 * w)) in *.
  change ((1 + 1) * w) with (2 * w) in R1.
  destruct (pack_step w 2 a1 x2) as [E2 R2]; try lia.
  rewrite E2. clear E2. set (a2 := a1 + x2 * 2 ^ (2 * w)) in *.
  change ((2 + 1) * w) with (3 * w) in R2.
  destruct (pack_step w 3 a2 x3) as [E3 R3]; try lia.
  rewrite E3. clear E3.
  change ((3 + 1) * w) with (4 * w) in R3.
  assert (Hgoal : a2 + x3 * 2 ^ (3 * w)
                  = x0 + x1 * 2 ^ w + x2 * 2 ^ (2 * w) + x3 * 2 ^ (3 * w)).
  { subst a2 a1 a0. change (0 * w) with 0. change (2 ^ 0) with 1.
    rewrite Z.mul_1_l. lia. }
  rewrite <- Hgoal. split; [reflexivity | exact R3].
Qed.

(** Reading slot [s] of a packed word gives back the field put there. *)
Lemma field_packed (w x0 x1 x2 x3 s : Z) :
  0 < w ->
  0 <= x0 < 2 ^ w -> 0 <= x1 < 2 ^ w -> 0 <= x2 < 2 ^ w -> 0 <= x3 < 2 ^ w ->
  0 <= s < 4 ->
  field w (packed w x0 x1 x2 x3) s
  = nth (Z.to_nat s) [x0; x1; x2; x3] 0.
Proof.
  intros Hw H0 H1 H2 H3 Hs. unfold field, packed.
  rewrite Z.shiftr_div_pow2, Z.land_ones by nia.
  assert (Hp : 0 < 2 ^ w) by (apply Z.pow_pos_nonneg; lia).
  assert (E2 : 2 ^ (2 * w) = 2 ^ w * 2 ^ w).
  { rewrite <- Z.pow_add_r by lia. f_equal. lia. }
  assert (E3 : 2 ^ (3 * w) = 2 ^ w * 2 ^ w * 2 ^ w).
  { rewrite <- !Z.pow_add_r by lia. f_equal. lia. }
  rewrite E2, E3. set (P := 2 ^ w) in *.
  each_index s Hs; simpl (nth _ _ _).
  - change (0 * w) with 0. change (2 ^ 0) with 1. rewrite Z.div_1_r.
    symmetry. apply (Z.mod_unique _ P (x1 + x2 * P + x3 * P * P) x0); [lia | ring].
  - rewrite Z.mul_1_l. fold P.
    replace ((x0 + x1 * P + x2 * (P * P) + x3 * (P * P * P)) / P)
      with (x1 + x2 * P + x3 * P * P)
      by (apply (Z.div_unique _ P _ x0); [lia | ring]).
    symmetry. apply (Z.mod_unique _ P (x2 + x3 * P) x1); [lia | ring].
  - rewrite E2. fold P.
    replace ((x0 + x1 * P + x2 * (P * P) + x3 * (P * P * P)) / (P * P))
      with (x2 + x3 * P)
      by (apply (Z.div_unique _ (P * P) _ (x0 + x1 * P)); [nia | ring]).
    symmetry. apply (Z.mod_unique _ P x3 x2); [lia | ring].
  - rewrite E3. fold P.
    replace ((x0 + x1 * P + x2 * (P * P) + x3 * (P * P * P)) / (P * P * P))
      with x3
      by (apply (Z.div_unique _ (P * P * P) _ (x0 + x1 * P + x2 * (P * P))); [nia | ring]).
    apply Z.mod_small. lia.
Qed.

(** ** The packing loops *)

(** The address fields do not depend on the matrix: slot [s] of either loop
    holds the address composed from bank [s] and the fixed index. *)
Lemma compose_bram_address_field (bank_idx element_idx : Z) :
  0 <= bank_idx < 4 -> 0 <= element_idx < 4 ->
  0 <= compose_bram_address bank_idx element_idx < 2 ^ ADDR_BITS.
Proof.
  intros Hb He. rewrite compose_bram_address_valid by assumption.
  change (2 ^ ADDR_BITS) with 16. lia.
Qed.

Lemma load_matrix_A_column_loop_addr (m : matrix) (col_idx : Z) :
  0 <= col_idx < 4 ->
  fst (load_matrix_A_column_loop m col_idx) = address_fields col_idx.
Proof.
  intros Hc. unfold load_matrix_A_column_loop. rewrite for_range_dim.
  unfold load_matrix_A_column_body, address_fields, ADDR_BITS. cbn [fst].
  apply pack_four; try lia; apply compose_bram_address_field; lia.
Qed.

Lemma load_matrix_B_row_loop_addr (m : matrix) (row_idx : Z) :
  0 <= row_idx < 4 ->
  fst (load_matrix_B_row_loop m row_idx) = address_fields row_idx.
Proof.
  intros Hr. unfold load_matrix_B_row_loop. rewrite for_range_dim.
  unfold load_matrix_B_row_body, address_fields, ADDR_BITS. cbn [fst].
  apply pack_four; try lia; apply compose_bram_address_field; lia.
Qed.

Lemma elem_to_uint64 (m : matrix) (r c : Z) :
  matrix_ok m = true -> 0 <= r < 4 -> 0 <= c < 4 ->
  to_uint64 (elem m r c) = elem m r c.
Proof.
  intros Hok Hr Hc. apply wrap_small.
  pose proof (matrix_ok_elem m r c Hok Hr Hc) as H.
  assert (2 ^ 16 <= 2 ^ 64) by (apply Z.pow_le_mono_r; lia). lia.
Qed.

Lemma load_matrix_A_column_loop_data (m : matrix) (col_idx : Z) :
  matrix_ok m = true -> 0 <= col_idx < 4 ->
  snd (load_matrix_A_column_loop m col_idx) = column_word m col_idx.
Proof.
  intros Hok Hc. unfold load_matrix_A_column_loop. rewrite for_range_dim.
  unfold load_matrix_A_column_body, column_word. cbn [snd].
  rewrite !elem_to_uint64 by (assumption || lia).
  apply pack_four; try lia; apply matrix_ok_elem; (assumption || lia).
Qed.

Lemma load_matrix_B_row_loop_data (m : matrix) (row_idx : Z) :
  matrix_ok m = true -> 0 <= row_idx < 4 ->
  snd (load_matrix_B_row_loop m row_idx) = row_word m row_idx.
Proof.
  intros Hok Hr. unfold load_matrix_B_row_loop. rewrite for_range_dim.
  unfold load_matrix_B_row_body, row_word. cbn [snd].
  rewrite !elem_to_uint64 by (assumption || lia).
  apply pack_four; try lia; apply matrix_ok_elem; (assumption || lia).
Qed.

Lemma column_word_range (m : matrix) (c : Z) :
  matrix_ok m = true -> 0 <= c < 4 -> 0 <= column_word m c < 2 ^ 64.
Proof.
  intros Hok Hc. unfold column_word.
  apply (pack_four 16); try lia; apply matrix_ok_elem; (assumption || lia).
Qed.

(** Whatever the matrix holds, the buffers stay 64-bit words. *)
Lemma lor_uint64 (a x : Z) :
  0 <= a < 2 ^ 64 -> 0 <= Z.lor a (to_uint64 x) < 2 ^ 64.
Proof.
  intros Ha. apply lor_range; [lia | exact Ha |].
  unfold to_uint64. apply wrap_range. lia.
Qed.

Lemma load_matrix_A_column_loop_range (m : matrix) (col_idx : Z) :
  0 <= fst (load_matrix_A_column_loop m col_idx) < 2 ^ 64
  /\ 0 <= snd (load_matrix_A_column_loop m col_idx) < 2 ^ 64.
Proof.
  unfold load_matrix_A_column_loop. rewrite for_range_dim.
  unfold load_matrix_A_column_body. cbn [fst snd].
  split; repeat apply lor_uint64; split; try reflexivity; discriminate.
Qed.

Lemma load_matrix_B_row_loop_range (m : matrix) (row_idx : Z) :
  0 <= fst (load_matrix_B_row_loop m row_idx) < 2 ^ 64
  /\ 0 <= snd (load_matrix_B_row_loop m row_idx) < 2 ^ 64.
Proof.
  unfold load_matrix_B_row_loop. rewrite for_range_dim.
  unfold load_matrix_B_row_body. cbn [fst snd].
  split; repeat apply lor_uint64; split; try reflexivity; discriminate.
Qed.

Lemma elem_transpose (m : matrix) (r c : Z) :
  0 <= r < 4 -> 0 <= c < 4 -> elem (transpose m) r c = elem m c r.
Proof.
  intros Hr Hc. each_index r Hr; each_index c Hc; reflexivity.
Qed.

Lemma load_matrix_B_row_loop_transpose (m : matrix) (i : Z) :
  0 <= i < 4 ->
  load_matrix_B_row_loop (transpose m) i = load_matrix_A_column_loop m i.
Proof.
  intros Hi. unfold load_matrix_B_row_loop, load_matrix_A_column_loop.
  rewrite !for_range_dim.
  unfold load_matrix_B_row_body, load_matrix_A_column_body.
  rewrite !elem_transpose by lia. reflexivity.
Qed.

(** The other direction: packing a column of the transpose is packing a row. *)
Lemma load_matrix_A_column_loop_transpose (m : matrix) (i : Z) :
  0 <= i < 4 ->
  load_matrix_A_column_loop (transpose m) i = load_matrix_B_row_loop m i.
Proof.
  intros Hi. unfold load_matrix_B_row_loop, load_matrix_A_column_loop.
  rewrite !for_range_dim.
  unfold load_matrix_B_row_body, load_matrix_A_column_body.
  rewrite !elem_transpose by lia. reflexivity.
Qed.

(** ** Running computations *)

Lemma result_bind {A B : Type} (m : io A) (f : A -> io B) (d : D) :
  result (bind m f d)
  = match result (m d) with
    | Some a => result (f a (final (m d)))
    | None => None
    end.
Proof. unfold bind. destruct (result (m d)); reflexivity. Qed.

Lemma final_bind {A B : Type} (m : io A) (f : A -> io B) (d : D) :
  final (bind m f d)
  = match result (m d) with
    | Some a => final (f a (final (m d)))
    | None => final (m d)
    end.
Proof. unfold bind. destruct (result (m d)); reflexivity. Qed.

Lemma trace_bind {A B : Type} (m : io A) (f : A -> io B) (d : D) :
  trace (bind m f d)
  = trace (m d)
    ++ match result (m d) with
       | Some a => trace (f a (final (m d)))
       | None => []
       end.
Proof.
  unfold bind. destruct (result (m d)); cbn [trace].
  - reflexivity.
  - symmetry. apply app_nil_r.
Qed.

Lemma stores_app (t1 t2 : list event) : stores (t1 ++ t2) = stores t1 ++ stores t2.
Proof. apply filter_app. Qed.

Lemma mmio_app (t1 t2 : list event) : mmio (t1 ++ t2) = mmio t1 ++ mmio t2.
Proof. apply filter_app. Qed.

Lemma stores_mmio (t : list event) : stores (mmio t) = stores t.
Proof.
  unfold stores, mmio. induction t as [| e t IH]; [reflexivity |].
  destruct e; cbn; rewrite ?IH; reflexivity.
Qed.

Lemma total_unit (m : io unit) (d : D) : total m -> result (m d) = Some tt.
Proof.
  intros Hm. specialize (Hm d). destruct (result (m d)) as [[] |]; congruence.
Qed.

Lemma total_bind {A B : Type} (m : io A) (f : A -> io B) :
  total m -> (forall a, total (f a)) -> total (bind m f).
Proof.
  intros Hm Hf d. rewrite result_bind.
  specialize (Hm d). destruct (result (m d)) as [a |]; [apply Hf | congruence].
Qed.

Lemma total_ret {A : Type} (a : A) : total (ret a).
Proof. intros d. discriminate. Qed.

Lemma total_printf (fmt : string) (args : list Z) : total (printf fmt args).
Proof. intros d. discriminate. Qed.

Lemma total_store (w : width) (ptr v : Z) : total (store w ptr v).
Proof. intros d. discriminate. Qed.

Lemma total_load (w : width) (ptr : Z) : total (load w ptr).
Proof. intros d. discriminate. Qed.

Lemma total_for_each (l : list Z) (body : Z -> io unit) :
  (forall i, In i l -> total (body i)) -> total (for_each l body).
Proof.
  induction l as [| i l IH]; intros Hb; cbn [for_each].
  - apply total_ret.
  - apply total_bind; [apply Hb; left; reflexivity |].
    intros _. apply IH. intros j Hj. apply Hb. right. exact Hj.
Qed.

Create HintDb io.
#[local] Hint Resolve total_ret total_printf total_store total_load : io.

(** The trace of a loop is the traces of its iterations, one after the
    other, each from the device state the one before left. *)
Lemma trace_for_each_cons (i : Z) (l : list Z) (body : Z -> io unit) (d : D) :
  total (body i) ->
  trace (for_each (i :: l) body d)
  = trace (body i d) ++ trace (for_each l body (final (body i d))).
Proof.
  intros Hb. cbn [for_each]. rewrite trace_bind, (total_unit _ _ Hb). reflexivity.
Qed.

(** When every iteration stores the same words whatever the device does, so
    does the loop. *)
Lemma stores_for_each (l : list Z) (body : Z -> io unit) (S : Z -> list event) :
  (forall i, In i l -> total (body i)) ->
  (forall i d, In i l -> stores (trace (body i d)) = S i) ->
  forall d, stores (trace (for_each l body d)) = flat_map S l.
Proof.
  induction l as [| i l IH]; intros Ht Hs d.
  - reflexivity.
  - rewrite trace_for_each_cons by (apply Ht; left; reflexivity).
    rewrite stores_app, Hs by (left; reflexivity).
    rewrite IH; [reflexivity | |]; intros; [apply Ht | apply Hs]; right; assumption.
Qed.

(** ** The loaders *)

Lemma load_matrix_A_column_invalid (addr data : Z) (m : matrix) (col_idx : Z) (d : D) :
  MATRIX_DIM <= col_idx ->
  load_matrix_A_column addr data m col_idx d
  = Outcome (Some tt) d
            [Printf "Error: Column index %u out of bounds for Matrix A.\n" [col_idx]].
Proof.
  intros H. unfold load_matrix_A_column.
  apply Z.leb_le in H. rewrite H. reflexivity.
Qed.

Lemma load_matrix_B_row_invalid (addr data : Z) (m : matrix) (row_idx : Z) (d : D) :
  MATRIX_DIM <= row_idx ->
  load_matrix_B_row addr data m row_idx d
  = Outcome (Some tt) d
            [Printf "Error: Column index %u out of bounds for Matrix A.\n" [row_idx]].
Proof.
  intros H. unfold load_matrix_B_row.
  apply Z.leb_le in H. rewrite H. reflexivity.
Qed.

(** The register accesses of a valid load: the two stores, then the two
    loads that feed the progress report. *)
Lemma load_matrix_A_column_mmio (addr data : Z) (m : matrix) (col_idx : Z) (d : D) :
  col_idx < MATRIX_DIM ->
  exists v1 v2,
    mmio (trace (load_matrix_A_column addr data m col_idx d))
    = [Store uint64_t addr (fst (load_matrix_A_column_loop m col_idx));
       Store uint64_t data (snd (load_matrix_A_column_loop m col_idx));
       Load uint64_t addr v1; Load uint64_t data v2].
Proof.
  intros H. unfold load_matrix_A_column.
  apply Z.leb_gt in H. rewrite H.
  destruct (load_matrix_A_column_loop_range m col_idx) as [Ha Hd].
  destruct (load_matrix_A_column_loop m col_idx) as [aw dw]. cbn [fst snd] in *.
  cbn [bind printf store load result final trace app mmio filter is_mmio].
  change (bits uint64_t) with 64. rewrite !wrap_small by assumption.
  eexists. eexists. reflexivity.
Qed.

Lemma load_matrix_B_row_mmio (addr data : Z) (m : matrix) (row_idx : Z) (d : D) :
  row_idx < MATRIX_DIM ->
  exists v1 v2,
    mmio (trace (load_matrix_B_row addr data m row_idx d))
    = [Store uint64_t addr (fst (load_matrix_B_row_loop m row_idx));
       Store uint64_t data (snd (load_matrix_B_row_loop m row_idx));
       Load uint64_t addr v1; Load uint64_t data v2].
Proof.
  intros H. unfold load_matrix_B_row.
  apply Z.leb_gt in H. rewrite H.
  destruct (load_matrix_B_row_loop_range m row_idx) as [Ha Hd].
  destruct (load_matrix_B_row_loop m row_idx) as [aw dw]. cbn [fst snd] in *.
  cbn [bind printf store load result final trace app mmio filter is_mmio].
  change (bits uint64_t) with 64. rewrite !wrap_small by assumption.
  eexists. eexists. reflexivity.
Qed.

Lemma load_matrix_A_column_stores (addr data : Z) (m : matrix) (col_idx : Z) (d : D) :
  col_idx < MATRIX_DIM ->
  stores (trace (load_matrix_A_column addr data m col_idx d))
  = [Store uint64_t addr (fst (load_matrix_A_column_loop m col_idx));
     Store uint64_t data (snd (load_matrix_A_column_loop m col_idx))].
Proof.
  intros H. rewrite <- stores_mmio.
  destruct (load_matrix_A_column_mmio addr data m col_idx d H) as (v1 & v2 & ->).
  reflexivity.
Qed.

Lemma load_matrix_B_row_stores (addr data : Z) (m : matrix) (row_idx : Z) (d : D) :
  row_idx < MATRIX_DIM ->
  stores (trace (load_matrix_B_row addr data m row_idx d))
  = [Store uint64_t addr (fst (load_matrix_B_row_loop m row_idx));
     Store uint64_t data (snd (load_matrix_B_row_loop m row_idx))].
Proof.
  intros H. rewrite <- stores_mmio.
  destruct (load_matrix_B_row_mmio addr data m row_idx d H) as (v1 & v2 & ->).
  reflexivity.
Qed.

Lemma total_load_matrix_A_column (addr data : Z) (m : matrix) (col_idx : Z) :
  total (load_matrix_A_column addr data m col_idx).
Proof.
  intros d. unfold load_matrix_A_column.
  destruct (MATRIX_DIM <=? col_idx); [discriminate |].
  destruct (load_matrix_A_column_loop m col_idx). discriminate.
Qed.

Lemma total_load_matrix_B_row (addr data : Z) (m : matrix) (row_idx : Z) :
  total (load_matrix_B_row addr data m row_idx).
Proof.
  intros d. unfold load_matrix_B_row.
  destruct (MATRIX_DIM <=? row_idx); [discriminate |].
  destruct (load_matrix_B_row_loop m row_idx). discriminate.
Qed.

#[local] Hint Resolve total_load_matrix_A_column total_load_matrix_B_row : io.

(** ** The completion poll *)

Lemma land_1_done_bit (v : Z) : (Z.land v 0x1 =? 0) = negb (done_bit v).
Proof.
  unfold done_bit. change 0x1 with (Z.ones 1).
  rewrite Z.land_ones by lia. change (2 ^ 1) with 2.
  pose proof (Z.bit0_mod v) as Hb.
  destruct (Z.testbit v 0); cbn [Z.b2z negb] in *; rewrite <- Hb; reflexivity.
Qed.

(** The poll, read off the device's answers: it stops at the first answer
    with the done bit set, and the budget is all that can stop it before. *)
Lemma main_poll_run (fuel : nat) (ptr : Z) (d : D) :
  exists n,
    (n <= fuel)%nat
    /\ trace (main_poll fuel ptr d) = map (Load alt_u32 ptr) (answers n ptr d)
    /\ final (main_poll fuel ptr d) = after_answers n ptr d
    /\ (forall v, In v (removelast (answers n ptr d)) -> done_bit v = false)
    /\ match result (main_poll fuel ptr d) with
       | Some status_reg =>
           (0 < n)%nat
           /\ last (answers n ptr d) 0 = status_reg
           /\ done_bit status_reg = true
           /\ forall fuel', (n <= fuel')%nat ->
                main_poll fuel' ptr d = main_poll fuel ptr d
       | None =>
           n = fuel /\ forall v, In v (answers n ptr d) -> done_bit v = false
       end.
Proof.
  revert d. induction fuel as [| fuel IH]; intros d.
  - exists O. cbn. repeat split; try lia; intros v [].
  - unfold main_poll in *. cbn [do_while].
    rewrite result_bind, trace_bind, final_bind.
    cbn [load result final trace].
    set (v := wrap (bits alt_u32) (fst (dev_load alt_u32 ptr d))).
    set (d1 := snd (dev_load alt_u32 ptr d)).
    rewrite land_1_done_bit.
    destruct (done_bit v) eqn:Hv; cbn [negb].
    + exists 1%nat. cbn [answers map app removelast last]. fold v.
      cbn [ret result final trace after_answers]. fold d1.
      split; [lia |]. split; [reflexivity |]. split; [reflexivity |].
      split; [intros ? [] |].
      split; [lia |]. split; [reflexivity |]. split; [exact Hv |].
      intros fuel' Hf. destruct fuel' as [| fuel']; [lia |].
      cbn [do_while]. unfold bind. cbn [load result final trace].
      fold v d1. rewrite land_1_done_bit, Hv. reflexivity.
    + destruct (IH d1) as (n & Hn & Htr & Hfin & Hpre & Hres).
      exists (S n). cbn [answers after_answers]. fold v d1.
      rewrite Htr, Hfin. cbn [map app].
      split; [lia |]. split; [reflexivity |]. split; [reflexivity |].
      split.
      * intros u Hu. destruct n as [| n].
        { destruct Hu. }
        { cbn [answers] in *. cbn [removelast] in Hu.
          destruct Hu as [<- | Hu]; [exact Hv | apply Hpre; exact Hu]. }
      * destruct (result (do_while fuel (load alt_u32 ptr)
                            (fun status_reg => Z.land status_reg 0x1 =? 0) d1))
          as [status_reg |].
        -- destruct Hres as (Hpos & Hlast & Hdone & Hmono).
           split; [lia |]. split.
           { destruct n as [| n]; [lia |]. cbn [answers] in *. exact Hlast. }
           split; [exact Hdone |].
           intros fuel' Hf. destruct fuel' as [| fuel']; [lia |].
           cbn [do_while]. unfold bind. cbn [load result final trace].
           fold v d1. rewrite land_1_done_bit, Hv. cbn [negb].
           rewrite (Hmono fuel') by lia. reflexivity.
        -- destruct Hres as (-> & Hall). split; [reflexivity |].
           intros u [<- | Hu]; [exact Hv | apply Hall; exact Hu].
Qed.

(** ** The blocks of [main] *)

Lemma in_range_dim (i : Z) : In i (range 0 4) -> 0 <= i < 4.
Proof.
  change (range 0 4) with [0; 1; 2; 3]. cbn [In]. lia.
Qed.

Lemma total_main_load_A (p q : Z) : total (main_load_A p q).
Proof. apply total_for_each. auto with io. Qed.

Lemma total_main_load_B (p q : Z) : total (main_load_B p q).
Proof. apply total_for_each. auto with io. Qed.

Lemma main_load_A_stores (p q : Z) (d : D) :
  stores (trace (main_load_A p q d)) = flat_map (column_stores p q) (range 0 4).
Proof.
  apply stores_for_each; [auto with io |].
  intros i d' Hi. apply in_range_dim in Hi.
  unfold to_uint8. rewrite wrap_small by (change (2 ^ 8) with 256; lia).
  apply load_matrix_A_column_stores. unfold MATRIX_DIM. lia.
Qed.

Lemma main_load_B_stores (p q : Z) (d : D) :
  stores (trace (main_load_B p q d)) = flat_map (row_stores p q) (range 0 4).
Proof.
  apply stores_for_each; [auto with io |].
  intros i d' Hi. apply in_range_dim in Hi.
  unfold to_uint8. rewrite wrap_small by (change (2 ^ 8) with 256; lia).
  apply load_matrix_B_row_stores. unfold MATRIX_DIM. lia.
Qed.

Lemma mmio_for_each_round_trips (l : list Z) (body : Z -> io unit)
    (idx : Z -> list Z) (ev : Z * Z -> list event) :
  (forall i, In i l -> total (body i)) ->
  (forall i d, In i l ->
     exists ps, map fst ps = idx i /\ mmio (trace (body i d)) = flat_map ev ps) ->
  forall d,
    exists ps, map fst ps = flat_map idx l
               /\ mmio (trace (for_each l body d)) = flat_map ev ps.
Proof.
  induction l as [| i l IH]; intros Ht Hb d.
  - exists []. split; reflexivity.
  - rewrite trace_for_each_cons by (apply Ht; left; reflexivity).
    destruct (Hb i d (or_introl eq_refl)) as (ps1 & Hi1 & Ht1).
    destruct (IH (fun j Hj => Ht j (or_intror Hj))
                 (fun j d' Hj => Hb j d' (or_intror Hj))
                 (final (body i d))) as (ps2 & Hi2 & Ht2).
    exists (ps1 ++ ps2). cbn [flat_map].
    rewrite map_app, mmio_app, flat_map_app, Hi1, Hi2, Ht1, Ht2.
    split; reflexivity.
Qed.

Lemma flat_map_single {A B : Type} (f : A -> B) (l : list A) :
  flat_map (fun x => [f x]) l = map f l.
Proof. induction l as [| x l IH]; cbn; [| rewrite IH]; reflexivity. Qed.

Lemma total_main_read_results (ca cd : Z) : total (main_read_results ca cd).
Proof.
  apply total_for_each. intros row _. apply total_for_each. intros col _.
  repeat (apply total_bind; [auto with io | intros ?]). auto with io.
Qed.

Lemma main_read_results_mmio (ca cd : Z) (d : D) :
  exists ps,
    map fst ps = row_major
    /\ mmio (trace (main_read_results ca cd d)) = flat_map (round_trip ca cd) ps.
Proof.
  unfold main_read_results, for_io, row_major.
  apply mmio_for_each_round_trips.
  - intros row _. apply total_for_each. intros col _.
    repeat (apply total_bind; [auto with io | intros ?]). auto with io.
  - intros row d1 Hrow.
    cbv beta. rewrite <- flat_map_single.
    apply mmio_for_each_round_trips.
    + intros col _.
      repeat (apply total_bind; [auto with io | intros ?]). auto with io.
    + intros col d2 Hcol.
      apply in_range_dim in Hrow. apply in_range_dim in Hcol.
      exists [(row * dim_N + col,
               wrap (bits alt_u32)
                    (fst (dev_load alt_u32 cd
                            (dev_store alt_u32 ca (row * dim_N + col) d2))))].
      split; [reflexivity |].
      cbn [bind printf store load result final trace app mmio filter is_mmio
           flat_map round_trip fst snd].
      unfold to_uint32. change (bits alt_u32) with 32.
      rewrite !(wrap_small 32 (row * dim_N + col))
        by (unfold dim_N; change (2 ^ 32) with 4294967296; lia).
      reflexivity.
Qed.

(** ** [main], block by block *)

Lemma result_main_load_A (p q : Z) (d : D) : result (main_load_A p q d) = Some tt.
Proof. apply total_unit, total_main_load_A. Qed.

Lemma result_main_load_B (p q : Z) (d : D) : result (main_load_B p q d) = Some tt.
Proof. apply total_unit, total_main_load_B. Qed.

Lemma result_main_read_results (p q : Z) (d : D) :
  result (main_read_results p q d) = Some tt.
Proof. apply total_unit, total_main_read_results. Qed.

(** What the primitives leave behind. *)

Lemma result_printf (fmt : string) (args : list Z) (d : D) :
  result (printf fmt args d) = Some tt.
Proof. reflexivity. Qed.

Lemma final_printf (fmt : string) (args : list Z) (d : D) :
  final (printf fmt args d) = d.
Proof. reflexivity. Qed.

Lemma trace_printf (fmt : string) (args : list Z) (d : D) :
  trace (printf fmt args d) = [Printf fmt args].
Proof. reflexivity. Qed.

Lemma result_store (w : width) (p v : Z) (d : D) :
  result (store w p v d) = Some tt.
Proof. reflexivity. Qed.

Lemma final_store (w : width) (p v : Z) (d : D) :
  final (store w p v d) = dev_store w p (wrap (bits w) v) d.
Proof. reflexivity. Qed.

Lemma trace_store (w : width) (p v : Z) (d : D) :
  trace (store w p v d) = [Store w p (wrap (bits w) v)].
Proof. reflexivity. Qed.

Lemma result_ret {A : Type} (a : A) (d : D) : result (ret a d) = Some a.
Proof. reflexivity. Qed.

Lemma trace_ret {A : Type} (a : A) (d : D) : trace (ret a d) = [].
Proof. reflexivity. Qed.

Lemma mmio_printf (fmt : string) (args : list Z) : mmio [Printf fmt args] = [].
Proof. reflexivity. Qed.

Lemma mmio_store (w : width) (p v : Z) : mmio [Store w p v] = [Store w p v].
Proof. reflexivity. Qed.

Lemma trigger_value : wrap (bits alt_u32) 0x3 = 3.
Proof. reflexivity. Qed.

(** One pass over a goal about a run of [main]: through every bind, with
    the outcomes of the primitives and the results of the total blocks. *)
Ltac run_block :=
  progress (rewrite ?trace_bind, ?result_bind, ?final_bind,
              ?result_printf, ?final_printf, ?trace_printf,
              ?result_store, ?final_store, ?trace_store, ?result_ret, ?trace_ret,
              ?result_main_load_A, ?result_main_load_B,
              ?result_main_read_results).

(** The register accesses of a run of [main] are those of its blocks in
    program order; past the poll there are some only if the poll returned. *)
Lemma main_blocks (fuel : nat) (d : D) :
  exists dA dB,
    let polled := main_poll fuel (MM_BASE + ADDR_STATUS_OFFSET) dB in
    mmio (trace (main fuel d))
    = mmio (trace (main_load_A (MM_BASE + ADDR_A_ADDR_OFFSET)
                               (MM_BASE + ADDR_A_DATA_OFFSET) d))
      ++ mmio (trace (main_load_B (MM_BASE + ADDR_B_ADDR_OFFSET)
                                  (MM_BASE + ADDR_B_DATA_OFFSET) dA))
      ++ [Store alt_u32 (MM_BASE + ADDR_CONTROL_OFFSET) 0x3]
      ++ mmio (trace polled)
      ++ match result polled with
         | Some _ =>
             mmio (trace (main_read_results (MM_BASE + ADDR_C_ADDR_OFFSET)
                                            (MM_BASE + ADDR_C_DATA_OFFSET)
                                            (final polled)))
         | None => []
         end
    /\ result (main fuel d)
       = match result polled with Some _ => Some 0 | None => None end.
Proof.
  unfold main. repeat run_block.
  match goal with
  | |- context [main_poll fuel _ ?d0] =>
      match d0 with
      | context [main_load_B _ _ ?dA] => exists dA; exists d0
      end
  end.
  cbv zeta. rewrite !trigger_value.
  match goal with
  | |- context [result ?o] => destruct (result o) as [status_reg |]
  end.
  - rewrite !mmio_app, !mmio_printf, mmio_store, !app_nil_l, !app_nil_r.
    split; reflexivity.
  - rewrite !mmio_app, !mmio_printf, mmio_store, !app_nil_l, !app_nil_r.
    split; reflexivity.
Qed.

(** ** Which registers a block touches *)

Lemma Forall_mmio_for_each (P : event -> Prop) (l : list Z) (body : Z -> io unit) :
  (forall i, In i l -> total (body i)) ->
  (forall i d, In i l -> Forall P (mmio (trace (body i d)))) ->
  forall d, Forall P (mmio (trace (for_each l body d))).
Proof.
  induction l as [| i l IH]; intros Ht Hb d.
  - constructor.
  - rewrite trace_for_each_cons by (apply Ht; left; reflexivity).
    rewrite mmio_app. apply Forall_app. split.
    + apply Hb. left. reflexivity.
    + apply IH; intros; [apply Ht | apply Hb]; right; assumption.
Qed.

Lemma main_load_A_registers (p q : Z) (d : D) :
  Forall (at_register [p; q]) (mmio (trace (main_load_A p q d))).
Proof.
  apply Forall_mmio_for_each; [auto with io |].
  intros i d' Hi. apply in_range_dim in Hi.
  unfold to_uint8. rewrite wrap_small by (change (2 ^ 8) with 256; lia).
  destruct (load_matrix_A_column_mmio p q matrix_A i d') as (v1 & v2 & ->);
    [unfold MATRIX_DIM; lia |].
  repeat (apply Forall_cons || apply Forall_nil); cbn; auto.
Qed.

Lemma main_load_B_registers (p q : Z) (d : D) :
  Forall (at_register [p; q]) (mmio (trace (main_load_B p q d))).
Proof.
  apply Forall_mmio_for_each; [auto with io |].
  intros i d' Hi. apply in_range_dim in Hi.
  unfold to_uint8. rewrite wrap_small by (change (2 ^ 8) with 256; lia).
  destruct (load_matrix_B_row_mmio p q matrix_B i d') as (v1 & v2 & ->);
    [unfold MATRIX_DIM; lia |].
  repeat (apply Forall_cons || apply Forall_nil); cbn; auto.
Qed.

Lemma mmio_loads (w : width) (p : Z) (vs : list Z) :
  mmio (map (Load w p) vs) = map (Load w p) vs.
Proof. induction vs as [| v vs IH]; cbn; [| unfold mmio in IH; rewrite IH]; reflexivity. Qed.

Lemma stores_loads (w : width) (p : Z) (vs : list Z) : stores (map (Load w p) vs) = [].
Proof. induction vs as [| v vs IH]; [reflexivity | exact IH]. Qed.

Lemma loads_registers (w : width) (p : Z) (vs : list Z) :
  Forall (at_register [p]) (map (Load w p) vs).
Proof. induction vs as [| v vs IH]; constructor; [left; reflexivity | exact IH]. Qed.

Lemma stores_round_trips (ca cd : Z) (ps : list (Z * Z)) :
  stores (flat_map (round_trip ca cd) ps) = map (Store alt_u32 ca) (map fst ps).
Proof.
  induction ps as [| iv ps IH]; [reflexivity |].
  cbn [flat_map round_trip map app]. unfold stores in *. cbn [filter is_store].
  rewrite IH. reflexivity.
Qed.

Lemma filter_none {A : Type} (f : A -> bool) (l : list A) :
  Forall (fun x => f x = false) l -> filter f l = [].
Proof.
  induction 1 as [| x l Hx _ IH]; [reflexivity |]. cbn. rewrite Hx. exact IH.
Qed.

Lemma filter_stores (f : event -> bool) (t : list event) :
  (forall e, is_store e = false -> f e = false) ->
  filter f (stores t) = filter f t.
Proof.
  intros Hf. unfold stores. induction t as [| e t IH]; [reflexivity |].
  cbn [filter]. destruct (is_store e) eqn:He.
  - cbn [filter]. rewrite IH. reflexivity.
  - rewrite (Hf e He). exact IH.
Qed.

(** Registers at different offsets from the base are different registers. *)
Lemma register_neq (off1 off2 : Z) :
  off1 <> off2 -> (MM_BASE + off1 =? MM_BASE + off2) = false.
Proof. intros H. apply Z.eqb_neq. lia. Qed.

Lemma row_major_ascending : row_major = range 0 16.
Proof. reflexivity. Qed.

Lemma at_register_away (regs : list Z) (a : Z) (e : event) :
  Forall (fun r => (r =? a) = false) regs -> at_register regs e -> accesses a e = false.
Proof.
  intros Hregs He. rewrite Forall_forall in Hregs.
  destruct e as [w r v | w r v | fmt args]; cbn in *; auto.
Qed.

Lemma filter_column_stores (c p q : Z) (l : list Z) :
  (p =? c) = false -> (q =? c) = false ->
  filter (is_store_to c) (flat_map (column_stores p q) l) = [].
Proof.
  intros Hp Hq. apply filter_none. apply Forall_flat_map.
  apply Forall_forall. intros col _.
  repeat (apply Forall_cons || apply Forall_nil); assumption.
Qed.

Lemma filter_row_stores (c p q : Z) (l : list Z) :
  (p =? c) = false -> (q =? c) = false ->
  filter (is_store_to c) (flat_map (row_stores p q) l) = [].
Proof.
  intros Hp Hq. apply filter_none. apply Forall_flat_map.
  apply Forall_forall. intros row _.
  repeat (apply Forall_cons || apply Forall_nil); assumption.
Qed.

Lemma filter_stores_elsewhere (c p : Z) (w : width) (l : list Z) :
  (p =? c) = false -> filter (is_store_to c) (map (Store w p) l) = [].
Proof.
  intros Hp. apply filter_none. apply Forall_map.
  apply Forall_forall. intros v _. exact Hp.
Qed.

(** ** Fields of the data words, and loading a transposed matrix *)

Lemma column_word_field (m : matrix) (c s : Z) :
  matrix_ok m = true -> 0 <= c < 4 -> 0 <= s < 4 ->
  field 16 (column_word m c) s = elem m s c.
Proof.
  intros Hok Hc Hs. unfold column_word. rewrite field_packed; try lia;
    try (apply matrix_ok_elem; (assumption || lia)).
  each_index s Hs; reflexivity.
Qed.

Lemma row_word_field (m : matrix) (r s : Z) :
  matrix_ok m = true -> 0 <= r < 4 -> 0 <= s < 4 ->
  field 16 (row_word m r) s = elem m r s.
Proof.
  intros Hok Hr Hs. unfold row_word. rewrite field_packed; try lia;
    try (apply matrix_ok_elem; (assumption || lia)).
  each_index s Hs; reflexivity.
Qed.

(** When [mT] holds at row [r], place [c] what [m] holds at row [c], place
    [r], packing row [i] of [mT] is packing column [i] of [m]. *)
Lemma load_matrix_B_row_loop_transposed (mT m : matrix) (i : Z) :
  0 <= i < 4 ->
  (forall r c, 0 <= r < 4 -> 0 <= c < 4 -> elem mT r c = elem m c r) ->
  load_matrix_B_row_loop mT i = load_matrix_A_column_loop m i.
Proof.
  intros Hi HT. unfold load_matrix_B_row_loop, load_matrix_A_column_loop.
  rewrite !for_range_dim.
  unfold load_matrix_B_row_body, load_matrix_A_column_body.
  rewrite (HT i 0), (HT i 1), (HT i 2), (HT i 3) by lia. reflexivity.
Qed.

Lemma load_matrix_A_column_loop_transposed (mT m : matrix) (i : Z) :
  0 <= i < 4 ->
  (forall r c, 0 <= r < 4 -> 0 <= c < 4 -> elem mT r c = elem m c r) ->
  load_matrix_A_column_loop mT i = load_matrix_B_row_loop m i.
Proof.
  intros Hi HT. unfold load_matrix_B_row_loop, load_matrix_A_column_loop.
  rewrite !for_range_dim.
  unfold load_matrix_B_row_body, load_matrix_A_column_body.
  rewrite (HT 0 i), (HT 1 i), (HT 2 i), (HT 3 i) by lia. reflexivity.
Qed.

(** * The claims *)

(** C1. For every 4x4 matrix of 16-bit elements and every column index in
    [0,4), the column loader stores exactly one address word and one data
    word, and the data word holds the four elements of the column in disjoint
    16-bit fields that fill it: bits [row*16, row*16+16) of the data word are
    [matrix[row][column_index]], the entry at place [column_index] of the row
    at place [row] of the matrix, for every row in [0,4). *)
Theorem column_data_word_fields (addr data : Z) (m : matrix) (column_index : Z) (d : D) :
  matrix_ok m = true ->
  0 <= column_index < 4 ->
  exists address_word data_word,
    stores (trace (load_matrix_A_column addr data m column_index d))
    = [Store uint64_t addr address_word; Store uint64_t data data_word]
    /\ 0 <= data_word < 2 ^ (4 * 16)
    /\ forall row, 0 <= row < 4 ->
         Z.land (Z.shiftr data_word (row * 16)) (Z.ones 16)
         = nth (Z.to_nat column_index) (nth (Z.to_nat row) m []) 0.
Proof.
  intros Hok Hc.
  exists (fst (load_matrix_A_column_loop m column_index)),
         (snd (load_matrix_A_column_loop m column_index)).
  split; [apply load_matrix_A_column_stores; unfold MATRIX_DIM; lia |].
  rewrite load_matrix_A_column_loop_data by assumption.
  split; [apply column_word_range; assumption |].
  intros row Hrow. change (field 16 (column_word m column_index) row = elem m row column_index).
  unfold column_word. rewrite field_packed; try lia;
    try (apply matrix_ok_elem; (assumption || lia)).
  each_index row Hrow; reflexivity.
Qed.

(** C2. For every 4x4 matrix of 16-bit elements and every row index in
    [0,4), the row loader goes through the columns: slot [col] of its address
    word is the address composed with bank index [col] and element index
    [row_index], and bits [col*16, col*16+16) of its data word are
    [matrix[row_index][col]], the entry at place [col] of the row at place
    [row_index] of the matrix, for every col in [0,4). *)
Theorem row_words_fields (addr data : Z) (m : matrix) (row_index : Z) (d : D) :
  matrix_ok m = true ->
  0 <= row_index < 4 ->
  exists address_word data_word,
    stores (trace (load_matrix_B_row addr data m row_index d))
    = [Store uint64_t addr address_word; Store uint64_t data data_word]
    /\ forall col, 0 <= col < 4 ->
         Z.land (Z.shiftr address_word (col * ADDR_BITS)) (Z.ones ADDR_BITS)
         = compose_bram_address col row_index
         /\ compose_bram_address col row_index = Z.lor row_index (Z.shiftl col 2)
         /\ Z.land (Z.shiftr data_word (col * 16)) (Z.ones 16)
            = nth (Z.to_nat col) (nth (Z.to_nat row_index) m []) 0.
Proof.
  intros Hok Hr.
  exists (fst (load_matrix_B_row_loop m row_index)),
         (snd (load_matrix_B_row_loop m row_index)).
  split; [apply load_matrix_B_row_stores; unfold MATRIX_DIM; lia |].
  rewrite load_matrix_B_row_loop_addr, load_matrix_B_row_loop_data by assumption.
  intros col Hcol. split; [| split].
  - change (field ADDR_BITS (address_fields row_index) col
            = compose_bram_address col row_index).
    unfold address_fields. rewrite field_packed;
      try (apply compose_bram_address_field; lia); try (unfold ADDR_BITS; lia).
    each_index col Hcol; reflexivity.
  - apply compose_bram_address_uint8; lia.
  - change (field 16 (row_word m row_index) col = elem m row_index col).
    unfold row_word. rewrite field_packed; try lia;
      try (apply matrix_ok_elem; (assumption || lia)).
    each_index col Hcol; reflexivity.
Qed.

(** C3. For every bank index and element index in [0,4),
    [compose_bram_address] returns exactly
    [element_index | (bank_index << 2)], a value that fits in 4 bits. *)
Theorem compose_bram_address_value (bank_index element_index : Z) :
  0 <= bank_index < 4 ->
  0 <= element_index < 4 ->
  compose_bram_address bank_index element_index
  = Z.lor element_index (Z.shiftl bank_index 2)
  /\ 0 <= compose_bram_address bank_index element_index < 2 ^ 4.
Proof.
  intros Hb He. split.
  - apply compose_bram_address_uint8; lia.
  - apply compose_bram_address_field; assumption.
Qed.

(** C4, as the code has it. For the sample matrix A and column 0 the column
    loader stores the data word [1 | (5<<16) | (9<<32) | (13<<48)] and the
    address word [0 | (4<<4) | (8<<8) | (12<<12)]: the address in slot [row]
    is [row << 2], the bank index shifted past the element index. *)
Theorem sample_column_0_words (addr data : Z) (d : D) :
  stores (trace (load_matrix_A_column addr data matrix_A 0 d))
  = [Store uint64_t addr
           (Z.lor 0 (Z.lor (Z.shiftl 4 4) (Z.lor (Z.shiftl 8 8) (Z.shiftl 12 12))));
     Store uint64_t data
           (Z.lor 1 (Z.lor (Z.shiftl 5 16) (Z.lor (Z.shiftl 9 32) (Z.shiftl 13 48))))].
Proof.
  rewrite load_matrix_A_column_stores by (unfold MATRIX_DIM; lia).
  reflexivity.
Qed.

(** C5. For every index >= 4 (so for every out-of-range [uint8_t]) passed to
    either loader, the call emits the error report and nothing else: no
    register is stored to or loaded from, the device is left in the state it
    was in, and the call returns, so that whatever follows it runs on from
    that same state. *)
Theorem invalid_index_reported (addr data : Z) (m : matrix) (index : Z) (d : D) :
  4 <= index ->
  let report :=
    Printf "Error: Column index %u out of bounds for Matrix A.\n" [index] in
  load_matrix_A_column addr data m index d = Outcome (Some tt) d [report]
  /\ load_matrix_B_row addr data m index d = Outcome (Some tt) d [report]
  /\ mmio [report] = []
  /\ forall (B : Type) (rest : io B),
       (load_matrix_A_column addr data m index ;; rest) d
       = Outcome (result (rest d)) (final (rest d)) (report :: trace (rest d))
       /\ (load_matrix_B_row addr data m index ;; rest) d
          = Outcome (result (rest d)) (final (rest d)) (report :: trace (rest d)).
Proof.
  intros Hi report.
  pose proof (load_matrix_A_column_invalid addr data m index d Hi) as HA.
  pose proof (load_matrix_B_row_invalid addr data m index d Hi) as HB.
  fold report in HA, HB.
  split; [exact HA |]. split; [exact HB |]. split; [reflexivity |].
  intros B rest. unfold bind. rewrite HA, HB. cbn [result final trace app].
  split; reflexivity.
Qed.

(** C6, as the code has it. In every run of [main] the stores are, in this
    order: the address word and the data word of each of the 4 columns of A,
    those of each of the 4 rows of B, the command value 0x3 (bits 0 and 1) to
    the control register at offset 0x00, and, once the poll has returned, the
    16 indices to the C-address register. The control register is stored to
    exactly once, and through the [alt_u32] pointer: a 32-bit access. *)
Theorem trigger_once_after_loads (fuel : nat) (d : D) :
  let control_reg := MM_BASE + ADDR_CONTROL_OFFSET in
  stores (trace (main fuel d))
  = flat_map (column_stores (MM_BASE + ADDR_A_ADDR_OFFSET)
                            (MM_BASE + ADDR_A_DATA_OFFSET)) (range 0 4)
    ++ flat_map (row_stores (MM_BASE + ADDR_B_ADDR_OFFSET)
                            (MM_BASE + ADDR_B_DATA_OFFSET)) (range 0 4)
    ++ [Store W32 control_reg 0x3]
    ++ match result (main fuel d) with
       | Some _ => map (Store W32 (MM_BASE + ADDR_C_ADDR_OFFSET)) row_major
       | None => []
       end
  /\ filter (is_store_to control_reg) (trace (main fuel d))
     = [Store W32 control_reg 0x3].
Proof.
  intros control_reg.
  assert (Hstores :
    stores (trace (main fuel d))
    = flat_map (column_stores (MM_BASE + ADDR_A_ADDR_OFFSET)
                              (MM_BASE + ADDR_A_DATA_OFFSET)) (range 0 4)
      ++ flat_map (row_stores (MM_BASE + ADDR_B_ADDR_OFFSET)
                              (MM_BASE + ADDR_B_DATA_OFFSET)) (range 0 4)
      ++ [Store W32 control_reg 0x3]
      ++ match result (main fuel d) with
         | Some _ => map (Store W32 (MM_BASE + ADDR_C_ADDR_OFFSET)) row_major
         | None => []
         end).
  { destruct (main_blocks fuel d) as (dA & dB & Hm & Hr). cbv zeta in Hm, Hr.
    rewrite <- stores_mmio, Hm, Hr.
    destruct (main_poll_run fuel (MM_BASE + ADDR_STATUS_OFFSET) dB)
      as (n & _ & Htr & _).
    rewrite !stores_app, !stores_mmio, main_load_A_stores, main_load_B_stores.
    rewrite Htr, stores_loads, app_nil_l.
    destruct (result (main_poll fuel (MM_BASE + ADDR_STATUS_OFFSET) dB)).
    - destruct (main_read_results_mmio (MM_BASE + ADDR_C_ADDR_OFFSET)
                  (MM_BASE + ADDR_C_DATA_OFFSET)
                  (final (main_poll fuel (MM_BASE + ADDR_STATUS_OFFSET) dB)))
        as (ps & Hidx & Hps).
      rewrite Hps, stores_round_trips, Hidx. reflexivity.
    - reflexivity. }
  split; [exact Hstores |].
  rewrite <- filter_stores by (intros [] ?; (reflexivity || discriminate)).
  rewrite Hstores, !filter_app.
  rewrite filter_column_stores, filter_row_stores
    by (apply register_neq; discriminate).
  assert (Hrest :
    filter (is_store_to control_reg)
           match result (main fuel d) with
           | Some _ => map (Store W32 (MM_BASE + ADDR_C_ADDR_OFFSET)) row_major
           | None => []
           end = []).
  { destruct (result (main fuel d)); [| reflexivity].
    apply filter_stores_elsewhere. apply register_neq. discriminate. }
  rewrite Hrest. cbn [filter is_store_to app].
  rewrite Z.eqb_refl. reflexivity.
Qed.

(** C7. In a run of [main] that gets past the poll, the register accesses
    end with the read-back: for the 16 output positions in row-major order
    (rows 0..3, in each the columns 0..3), the linear index [row*4+column],
    that is 0, 1, ..., 15 in turn, is stored to the C-address register and
    then the C-data register is loaded, once for each position; nothing
    before that touches either register. *)
Theorem results_read_row_major (fuel : nat) (d : D) :
  result (main fuel d) <> None ->
  let c_addr_reg := MM_BASE + ADDR_C_ADDR_OFFSET in
  let c_data_reg := MM_BASE + ADDR_C_DATA_OFFSET in
  exists before ps,
    mmio (trace (main fuel d))
    = before
      ++ flat_map (fun iv => [Store W32 c_addr_reg (fst iv);
                              Load W32 c_data_reg (snd iv)]) ps
    /\ map fst ps
       = flat_map (fun row => map (fun col => row * 4 + col) [0; 1; 2; 3])
                  [0; 1; 2; 3]
    /\ map fst ps = [0; 1; 2; 3; 4; 5; 6; 7; 8; 9; 10; 11; 12; 13; 14; 15]
    /\ Forall (fun e => accesses c_addr_reg e = false
                        /\ accesses c_data_reg e = false) before.
Proof.
  intros Hfin c_addr_reg c_data_reg.
  destruct (main_blocks fuel d) as (dA & dB & Hm & Hr). cbv zeta in Hm, Hr.
  destruct (main_poll_run fuel (MM_BASE + ADDR_STATUS_OFFSET) dB)
    as (n & _ & Htr & _).
  destruct (result (main_poll fuel (MM_BASE + ADDR_STATUS_OFFSET) dB))
    as [status_reg |]; [| congruence].
  destruct (main_read_results_mmio c_addr_reg c_data_reg
              (final (main_poll fuel (MM_BASE + ADDR_STATUS_OFFSET) dB)))
    as (ps & Hidx & Hps).
  fold c_addr_reg c_data_reg in Hm. rewrite Hps, !app_assoc in Hm.
  eexists. exists ps. split; [exact Hm |].
  split; [exact Hidx |]. split; [rewrite Hidx; reflexivity |].
  rewrite Htr, mmio_loads.
  apply Forall_app; split; [apply Forall_app; split; [apply Forall_app; split |] |].
  - eapply Forall_impl; [| apply main_load_A_registers].
    intros e He; split; (eapply at_register_away; [| exact He]);
      repeat constructor; apply register_neq; discriminate.
  - eapply Forall_impl; [| apply main_load_B_registers].
    intros e He; split; (eapply at_register_away; [| exact He]);
      repeat constructor; apply register_neq; discriminate.
  - repeat constructor; apply register_neq; discriminate.
  - eapply Forall_impl; [| apply loads_registers].
    intros e He; split; (eapply at_register_away; [| exact He]);
      repeat constructor; apply register_neq; discriminate.
Qed.

(** C8. In every run of [main], right after the command is stored the poll
    loads the status register again and again and does nothing else: its
    events are the device's successive answers. Every answer but the last has
    bit 0 clear. If the poll returns, the last answer has bit 0 set and is
    what it returns, and [main] goes on to completion; if it has not returned,
    the loop budget of the model is used up, every answer had bit 0 clear, and
    [main] has done nothing past the poll. Any larger budget gives the same
    poll, so nothing but an answer with bit 0 set ends it. *)
Theorem poll_until_done (fuel : nat) (d : D) :
  let status_reg_ptr := MM_BASE + ADDR_STATUS_OFFSET in
  exists d0 before after n,
    let polled := main_poll fuel status_reg_ptr d0 in
    let status_reads := answers n status_reg_ptr d0 in
    mmio (trace (main fuel d))
    = (before ++ [Store W32 (MM_BASE + ADDR_CONTROL_OFFSET) 0x3])
      ++ trace polled ++ after
    /\ trace polled = map (Load W32 status_reg_ptr) status_reads
    /\ (n <= fuel)%nat
    /\ (forall v, In v (removelast status_reads) -> Z.testbit v 0 = false)
    /\ match result polled with
       | Some status_reg =>
           (0 < n)%nat
           /\ last status_reads 0 = status_reg
           /\ Z.testbit status_reg 0 = true
           /\ result (main fuel d) = Some 0
           /\ forall fuel', (n <= fuel')%nat ->
                main_poll fuel' status_reg_ptr d0 = polled
       | None =>
           n = fuel
           /\ (forall v, In v status_reads -> Z.testbit v 0 = false)
           /\ after = []
           /\ result (main fuel d) = None
       end.
Proof.
  intros status_reg_ptr.
  destruct (main_blocks fuel d) as (dA & dB & Hm & Hr). cbv zeta in Hm, Hr.
  fold status_reg_ptr in Hm, Hr.
  destruct (main_poll_run fuel status_reg_ptr dB)
    as (n & Hn & Htr & _ & Hpre & Hres).
  exists dB.
  exists (mmio (trace (main_load_A (MM_BASE + ADDR_A_ADDR_OFFSET)
                                   (MM_BASE + ADDR_A_DATA_OFFSET) d))
          ++ mmio (trace (main_load_B (MM_BASE + ADDR_B_ADDR_OFFSET)
                                      (MM_BASE + ADDR_B_DATA_OFFSET) dA))).
  exists (match result (main_poll fuel status_reg_ptr dB) with
          | Some _ =>
              mmio (trace (main_read_results
                             (MM_BASE + ADDR_C_ADDR_OFFSET)
                             (MM_BASE + ADDR_C_DATA_OFFSET)
                             (final (main_poll fuel status_reg_ptr dB))))
          | None => []
          end).
  exists n. cbv zeta.
  split; [| split; [exact Htr | split; [exact Hn | split; [exact Hpre |]]]].
  - rewrite Hm, <- !app_assoc. do 3 f_equal.
    rewrite Htr, mmio_loads. reflexivity.
  - destruct (result (main_poll fuel status_reg_ptr dB)) as [status_reg |].
    + destruct Hres as (Hpos & Hlast & Hdone & Hmono).
      repeat split; assumption.
    + destruct Hres as (Hfuel & Hall). repeat split; assumption.
Qed.

(** C9. [compose_bram_address] is injective on its valid domain: two
    distinct pairs (bank index, element index) with all components in [0,4)
    give different addresses. *)
Theorem compose_bram_address_injective (bank1 element1 bank2 element2 : Z) :
  0 <= bank1 < 4 -> 0 <= element1 < 4 ->
  0 <= bank2 < 4 -> 0 <= element2 < 4 ->
  (bank1, element1) <> (bank2, element2) ->
  compose_bram_address bank1 element1 <> compose_bram_address bank2 element2.
Proof.
  intros Hb1 He1 Hb2 He2 Hne Heq. apply Hne.
  destruct (compose_bram_address_decode bank1 element1 Hb1 He1) as [B1 E1].
  destruct (compose_bram_address_decode bank2 element2 Hb2 He2) as [B2 E2].
  rewrite Heq in B1, E1. congruence.
Qed.

(** C10. For every index [i] in [0,4) and any two matrices, the address
    word stored by the column loader for column [i] is the address word stored
    by the row loader for row [i]: the OR over the slots [s] = 0, 1, 2, 3 of
    [(i | s<<2) << (s*4)], that is [0xC840 + 0x1111 * i]. The loaders differ
    in the data word alone, by which element goes to slot [s]: the column
    loader puts there the entry at place [i] of row [s], the row loader the
    entry at place [s] of row [i] (for 4x4 matrices of 16-bit elements), so
    that, on the same registers, the row loader on a matrix makes the register
    accesses of the column loader on the matrix it is the transpose of, and
    the other way round. *)
Theorem loaders_share_address_word (pA qA pB qB : Z) (mA mB : matrix) (i : Z) (dA dB : D) :
  0 <= i < 4 ->
  exists address_word data_word_A data_word_B,
    stores (trace (load_matrix_A_column pA qA mA i dA))
    = [Store uint64_t pA address_word; Store uint64_t qA data_word_A]
    /\ stores (trace (load_matrix_B_row pB qB mB i dB))
       = [Store uint64_t pB address_word; Store uint64_t qB data_word_B]
    /\ address_word
       = fold_left Z.lor
           (map (fun s => Z.shiftl (Z.lor i (Z.shiftl s 2)) (s * 4)) [0; 1; 2; 3]) 0
    /\ address_word = 0xC840 + 0x1111 * i
    /\ (matrix_ok mA = true ->
        forall s, 0 <= s < 4 ->
          Z.land (Z.shiftr data_word_A (s * 16)) (Z.ones 16)
          = nth (Z.to_nat i) (nth (Z.to_nat s) mA []) 0)
    /\ (matrix_ok mB = true ->
        forall s, 0 <= s < 4 ->
          Z.land (Z.shiftr data_word_B (s * 16)) (Z.ones 16)
          = nth (Z.to_nat s) (nth (Z.to_nat i) mB []) 0)
    /\ (forall mT : matrix,
          (forall r c, 0 <= r < 4 -> 0 <= c < 4 ->
             nth (Z.to_nat c) (nth (Z.to_nat r) mT []) 0
             = nth (Z.to_nat r) (nth (Z.to_nat c) mA []) 0) ->
          mmio (trace (load_matrix_B_row pA qA mT i dA))
          = mmio (trace (load_matrix_A_column pA qA mA i dA)))
    /\ (forall mT : matrix,
          (forall r c, 0 <= r < 4 -> 0 <= c < 4 ->
             nth (Z.to_nat c) (nth (Z.to_nat r) mT []) 0
             = nth (Z.to_nat r) (nth (Z.to_nat c) mB []) 0) ->
          mmio (trace (load_matrix_A_column pB qB mT i dB))
          = mmio (trace (load_matrix_B_row pB qB mB i dB))).
Proof.
  intros Hi.
  exists (address_fields i), (snd (load_matrix_A_column_loop mA i)),
         (snd (load_matrix_B_row_loop mB i)).
  split; [| split; [| split; [| split; [| split; [| split; [| split]]]]]].
  - rewrite load_matrix_A_column_stores by (unfold MATRIX_DIM; lia).
    rewrite load_matrix_A_column_loop_addr by exact Hi. reflexivity.
  - rewrite load_matrix_B_row_stores by (unfold MATRIX_DIM; lia).
    rewrite load_matrix_B_row_loop_addr by exact Hi. reflexivity.
  - each_index i Hi; reflexivity.
  - each_index i Hi; reflexivity.
  - intros Hok s Hs. rewrite load_matrix_A_column_loop_data by assumption.
    apply column_word_field; assumption.
  - intros Hok s Hs. rewrite load_matrix_B_row_loop_data by assumption.
    apply row_word_field; assumption.
  - intros mT HT. unfold load_matrix_B_row, load_matrix_A_column.
    rewrite (load_matrix_B_row_loop_transposed mT mA i Hi HT).
    destruct (MATRIX_DIM <=? i); [reflexivity |].
    destruct (load_matrix_A_column_loop mA i). reflexivity.
  - intros mT HT. unfold load_matrix_B_row, load_matrix_A_column.
    rewrite (load_matrix_A_column_loop_transposed mT mB i Hi HT).
    destruct (MATRIX_DIM <=? i); [reflexivity |].
    destruct (load_matrix_B_row_loop mB i). reflexivity.
Qed.

(** * Further properties *)

(** ** Whole traces *)

Lemma outcome_eq {A : Type} (o1 o2 : outcome A) :
  result o1 = result o2 -> final o1 = final o2 -> trace o1 = trace o2 -> o1 = o2.
Proof. destruct o1, o2. cbn. intros -> -> ->. reflexivity. Qed.

Lemma Forall_trace_for_each (P : event -> Prop) (l : list Z) (body : Z -> io unit) :
  (forall i, In i l -> total (body i)) ->
  (forall i d, In i l -> Forall P (trace (body i d))) ->
  forall d, Forall P (trace (for_each l body d)).
Proof.
  induction l as [| i l IH]; intros Ht Hb d.
  - constructor.
  - rewrite trace_for_each_cons by (apply Ht; left; reflexivity).
    apply Forall_app. split.
    + apply Hb. left. reflexivity.
    + apply IH; intros; [apply Ht | apply Hb]; right; assumption.
Qed.

Lemma load_matrix_A_column_trace (addr data : Z) (m : matrix) (col_idx : Z) (d : D) :
  col_idx < MATRIX_DIM ->
  exists v1 v2,
    (0 <= v1 < 2 ^ 64 /\ 0 <= v2 < 2 ^ 64)
    /\ trace (load_matrix_A_column addr data m col_idx d)
       = [Printf "Loading column %u of Matrix A into BRAM...\n" [col_idx];
          Store uint64_t addr (fst (load_matrix_A_column_loop m col_idx));
          Store uint64_t data (snd (load_matrix_A_column_loop m col_idx));
          Load uint64_t addr v1;
          Printf " Bram address : %llu\n" [v1];
          Load uint64_t data v2;
          Printf " Bram data : %llu\n" [v2];
          Printf "Finish loading col %u of Matrix A into BRAM...\n" [col_idx];
          Printf "------------------------------------------------------------- \n" []].
Proof.
  intros H. unfold load_matrix_A_column.
  apply Z.leb_gt in H. rewrite H.
  destruct (load_matrix_A_column_loop_range m col_idx) as [Ha Hd].
  destruct (load_matrix_A_column_loop m col_idx) as [aw dw]. cbn [fst snd] in *.
  cbn [bind printf store load result final trace app].
  change (bits uint64_t) with 64. rewrite !(wrap_small 64 aw), !(wrap_small 64 dw) by assumption.
  eexists. eexists. split; [| reflexivity].
  split; apply wrap_range; lia.
Qed.

Lemma load_matrix_B_row_trace (addr data : Z) (m : matrix) (row_idx : Z) (d : D) :
  row_idx < MATRIX_DIM ->
  exists v1 v2,
    (0 <= v1 < 2 ^ 64 /\ 0 <= v2 < 2 ^ 64)
    /\ trace (load_matrix_B_row addr data m row_idx d)
       = [Printf "Loading row %u of Matrix B into BRAM...\n" [row_idx];
          Store uint64_t addr (fst (load_matrix_B_row_loop m row_idx));
          Store uint64_t data (snd (load_matrix_B_row_loop m row_idx));
          Load uint64_t addr v1;
          Printf " Bram address : %llu\n" [v1];
          Load uint64_t data v2;
          Printf " Bram data : %llu\n" [v2];
          Printf " Finish loading row %u of Matrix B into BRAM...\n" [row_idx];
          Printf "------------------------------------------------------------- \n" []].
Proof.
  intros H. unfold load_matrix_B_row.
  apply Z.leb_gt in H. rewrite H.
  destruct (load_matrix_B_row_loop_range m row_idx) as [Ha Hd].
  destruct (load_matrix_B_row_loop m row_idx) as [aw dw]. cbn [fst snd] in *.
  cbn [bind printf store load result final trace app].
  change (bits uint64_t) with 64. rewrite !(wrap_small 64 aw), !(wrap_small 64 dw) by assumption.
  eexists. eexists. split; [| reflexivity].
  split; apply wrap_range; lia.
Qed.

Lemma lor_ge_l (a b : Z) : 0 <= b -> a <= Z.lor a b.
Proof.
  intros Hb. pose proof (Z.sub_lor_l_same_l b a) as H.
  assert (0 <= Z.land b (Z.lnot a)) by (apply Z.land_nonneg; left; exact Hb).
  lia.
Qed.

Lemma lor_ge_r (a b : Z) : 0 <= a -> b <= Z.lor a b.
Proof. intros Ha. rewrite Z.lor_comm. apply lor_ge_l. exact Ha. Qed.

Lemma Forall_row_major_range (ps : list (Z * Z)) :
  map fst ps = row_major -> Forall (fun p => 0 <= fst p < 16) ps.
Proof.
  intros H. apply Forall_forall. intros p Hp.
  assert (Hin : In (fst p) row_major) by (rewrite <- H; apply in_map; exact Hp).
  rewrite row_major_ascending in Hin.
  change (range 0 16) with [0; 1; 2; 3; 4; 5; 6; 7; 8; 9; 10; 11; 12; 13; 14; 15] in Hin.
  cbn [In] in Hin. lia.
Qed.

(** The lines of a loop are the lines of its iterations. *)
Lemma trace_for_each_lines (Q : Z * Z -> Prop) (l : list Z) (body : Z -> io unit)
    (idx : Z -> list Z) (ev : Z * Z -> list event) :
  (forall i, In i l -> total (body i)) ->
  (forall i d, In i l ->
     exists ps, map fst ps = idx i /\ Forall Q ps
                /\ trace (body i d) = flat_map ev ps) ->
  forall d,
    exists ps, map fst ps = flat_map idx l /\ Forall Q ps
               /\ trace (for_each l body d) = flat_map ev ps.
Proof.
  induction l as [| i l IH]; intros Ht Hb d.
  - exists []. repeat split. constructor.
  - rewrite trace_for_each_cons by (apply Ht; left; reflexivity).
    destruct (Hb i d (or_introl eq_refl)) as (ps1 & Hi1 & HQ1 & Ht1).
    destruct (IH (fun j Hj => Ht j (or_intror Hj))
                 (fun j d' Hj => Hb j d' (or_intror Hj))
                 (final (body i d))) as (ps2 & Hi2 & HQ2 & Ht2).
    exists (ps1 ++ ps2). cbn [flat_map].
    rewrite map_app, flat_map_app, Hi1, Hi2, Ht1, Ht2.
    split; [reflexivity |]. split; [| reflexivity].
    apply Forall_app. split; assumption.
Qed.

Lemma main_read_results_trace (ca cd : Z) (d : D) :
  exists ps,
    map fst ps = row_major
    /\ Forall (fun p => 0 <= snd p < 2 ^ 32) ps
    /\ trace (main_read_results ca cd d) = flat_map (result_line ca cd) ps.
Proof.
  unfold main_read_results, for_io, row_major.
  apply trace_for_each_lines.
  - intros row _. apply total_for_each. intros col _.
    repeat (apply total_bind; [auto with io | intros ?]). auto with io.
  - intros row d1 Hrow.
    cbv beta. rewrite <- flat_map_single.
    apply trace_for_each_lines.
    + intros col _.
      repeat (apply total_bind; [auto with io | intros ?]). auto with io.
    + intros col d2 Hcol.
      apply in_range_dim in Hrow. apply in_range_dim in Hcol.
      set (v := wrap 32
                     (fst (dev_load alt_u32 cd
                             (dev_store alt_u32 ca (row * dim_N + col) d2)))).
      assert (Hv : 0 <= v < 2 ^ 32) by (apply wrap_range; discriminate).
      exists [(row * dim_N + col, v)].
      split; [reflexivity |]. split; [repeat constructor; apply Hv |].
      cbn [bind printf store load result final trace app
           flat_map result_line fst snd].
      unfold to_uint32. change (bits alt_u32) with 32.
      rewrite !(wrap_small 32 (row * dim_N + col))
        by (unfold dim_N; change (2 ^ 32) with 4294967296; lia).
      fold v. rewrite (wrap_small 32 v) by exact Hv.
      replace ((row * dim_N + col) / dim_N) with row
        by (unfold dim_N; apply (Z.div_unique _ 4 row col); lia).
      replace ((row * dim_N + col) mod dim_N) with col
        by (unfold dim_N; apply (Z.mod_unique _ 4 row col); lia).
      reflexivity.
Qed.

Lemma main_poll_trace (fuel : nat) (ptr : Z) (d : D) :
  exists vs, trace (main_poll fuel ptr d) = map (Load alt_u32 ptr) vs.
Proof.
  destruct (main_poll_run fuel ptr d) as (n & _ & Htr & _).
  eexists. exact Htr.
Qed.

(** A goal about every event of appended traces, one trace at a time. *)
Ltac each_trace :=
  repeat match goal with
         | |- Forall _ (_ ++ _) => apply Forall_app; split
         | |- Forall _ [] => apply Forall_nil
         | |- Forall _ (_ :: _) => apply Forall_cons
         end.

Lemma to_uint8_index (i : Z) : In i (range 0 4) -> to_uint8 i = i.
Proof.
  intros Hi. apply in_range_dim in Hi.
  apply wrap_small. change (2 ^ 8) with 256. lia.
Qed.

Lemma main_load_A_no_error (p q : Z) (d : D) :
  Forall (fun e => is_error_report e = false) (trace (main_load_A p q d)).
Proof.
  apply Forall_trace_for_each; [auto with io |].
  intros i d' Hi. rewrite to_uint8_index by exact Hi. apply in_range_dim in Hi.
  destruct (load_matrix_A_column_trace p q matrix_A i d') as (v1 & v2 & _ & ->);
    [unfold MATRIX_DIM; lia |].
  each_trace; reflexivity.
Qed.

Lemma main_load_B_no_error (p q : Z) (d : D) :
  Forall (fun e => is_error_report e = false) (trace (main_load_B p q d)).
Proof.
  apply Forall_trace_for_each; [auto with io |].
  intros i d' Hi. rewrite to_uint8_index by exact Hi. apply in_range_dim in Hi.
  destruct (load_matrix_B_row_trace p q matrix_B i d') as (v1 & v2 & _ & ->);
    [unfold MATRIX_DIM; lia |].
  each_trace; reflexivity.
Qed.

Lemma main_load_A_register_use (d : D) :
  Forall register_use
         (mmio (trace (main_load_A (MM_BASE + ADDR_A_ADDR_OFFSET)
                                   (MM_BASE + ADDR_A_DATA_OFFSET) d))).
Proof.
  apply Forall_mmio_for_each; [auto with io |].
  intros i d' Hi. rewrite to_uint8_index by exact Hi. apply in_range_dim in Hi.
  destruct (load_matrix_A_column_mmio (MM_BASE + ADDR_A_ADDR_OFFSET)
              (MM_BASE + ADDR_A_DATA_OFFSET) matrix_A i d') as (v1 & v2 & ->);
    [unfold MATRIX_DIM; lia |].
  each_trace; left; (split; [reflexivity |]); cbn; auto.
Qed.

Lemma main_load_B_register_use (d : D) :
  Forall register_use
         (mmio (trace (main_load_B (MM_BASE + ADDR_B_ADDR_OFFSET)
                                   (MM_BASE + ADDR_B_DATA_OFFSET) d))).
Proof.
  apply Forall_mmio_for_each; [auto with io |].
  intros i d' Hi. rewrite to_uint8_index by exact Hi. apply in_range_dim in Hi.
  destruct (load_matrix_B_row_mmio (MM_BASE + ADDR_B_ADDR_OFFSET)
              (MM_BASE + ADDR_B_DATA_OFFSET) matrix_B i d') as (v1 & v2 & ->);
    [unfold MATRIX_DIM; lia |].
  each_trace; left; (split; [reflexivity |]); cbn; auto 6.
Qed.

(** ** The budget of the poll *)

Lemma main_result (fuel : nat) (d : D) :
  result (main fuel d)
  = match result (main_poll fuel (MM_BASE + ADDR_STATUS_OFFSET) (poll_start d)) with
    | Some _ => Some 0
    | None => None
    end.
Proof.
  unfold main, poll_start. repeat run_block. rewrite !trigger_value. reflexivity.
Qed.

(** A run of [main] depends on the budget through the poll alone. *)
Lemma main_depends_on_poll (fuel1 fuel2 : nat) (d : D) :
  main_poll fuel1 (MM_BASE + ADDR_STATUS_OFFSET) (poll_start d)
  = main_poll fuel2 (MM_BASE + ADDR_STATUS_OFFSET) (poll_start d) ->
  main fuel1 d = main fuel2 d.
Proof.
  intros E. unfold poll_start in E.
  apply outcome_eq; unfold main; repeat run_block;
    rewrite !trigger_value; rewrite E; reflexivity.
Qed.

(** The poll returns within [n+1] rounds when the device's answer number
    [n] (from 0) has the done bit set. *)
Lemma main_poll_complete (n : nat) (ptr : Z) (d : D) :
  done_bit (nth n (answers (S n) ptr d) 0) = true ->
  result (main_poll (S n) ptr d) <> None.
Proof.
  revert d. induction n as [| n IH]; intros d Hdone.
  - unfold main_poll. cbn [do_while]. rewrite result_bind.
    cbn [load result final]. cbn [answers nth] in Hdone.
    rewrite land_1_done_bit, Hdone. discriminate.
  - unfold main_poll in *. cbn [do_while]. rewrite result_bind.
    cbn [load result final].
    destruct (Z.land (wrap (bits alt_u32) (fst (dev_load alt_u32 ptr d))) 0x1 =? 0).
    + apply IH. cbn [answers nth] in Hdone. exact Hdone.
    + discriminate.
Qed.

(** * Further properties of the code *)

(** X1. [compose_bram_address] neither masks nor range-checks: for any two
    [uint8_t] arguments it returns [element_idx | (bank_idx << 2)] with no
    wrap-around, a value below 2^10, and that value fits the 4-bit slot of an
    address word exactly when the bank index is below 4 and the element index
    below 16. *)
Theorem compose_bram_address_unmasked (bank_idx element_idx : Z) :
  0 <= bank_idx < 256 ->
  0 <= element_idx < 256 ->
  compose_bram_address bank_idx element_idx
  = Z.lor element_idx (Z.shiftl bank_idx 2)
  /\ 0 <= compose_bram_address bank_idx element_idx < 2 ^ 10
  /\ (compose_bram_address bank_idx element_idx < 2 ^ ADDR_BITS
      <-> bank_idx < 4 /\ element_idx < 16).
Proof.
  intros Hb He. rewrite compose_bram_address_uint8 by assumption.
  assert (Hs : Z.shiftl bank_idx 2 = bank_idx * 4)
    by (rewrite Z.shiftl_mul_pow2 by lia; reflexivity).
  split; [reflexivity |]. split.
  - apply lor_range; [lia | |]; rewrite ?Hs;
      change (2 ^ 10) with 1024; lia.
  - change (2 ^ ADDR_BITS) with 16. split.
    + intros Hlt.
      pose proof (lor_ge_l element_idx (Z.shiftl bank_idx 2)) as H1.
      pose proof (lor_ge_r element_idx (Z.shiftl bank_idx 2)) as H2.
      rewrite Hs in *. lia.
    + intros [Hb4 He16].
      apply (lor_range 4); [lia | |]; rewrite ?Hs; change (2 ^ 4) with 16; lia.
Qed.

(** X2. Every 4-bit address is the address of exactly one cell: for [a] in
    [0,16), the bank [a >> 2] and the element [a & 3] are in [0,4),
    [compose_bram_address] of them is [a], and no other valid pair composes
    to [a]. *)
Theorem compose_bram_address_inverse (a : Z) :
  0 <= a < 16 ->
  0 <= Z.shiftr a ELEMENT_INDEX_BITS < 4
  /\ 0 <= Z.land a (Z.ones ELEMENT_INDEX_BITS) < 4
  /\ compose_bram_address (Z.shiftr a ELEMENT_INDEX_BITS)
                          (Z.land a (Z.ones ELEMENT_INDEX_BITS)) = a
  /\ forall bank_idx element_idx,
       0 <= bank_idx < 4 -> 0 <= element_idx < 4 ->
       compose_bram_address bank_idx element_idx = a ->
       bank_idx = Z.shiftr a ELEMENT_INDEX_BITS
       /\ element_idx = Z.land a (Z.ones ELEMENT_INDEX_BITS).
Proof.
  intros Ha. unfold ELEMENT_INDEX_BITS.
  rewrite Z.shiftr_div_pow2, Z.land_ones by lia. change (2 ^ 2) with 4.
  pose proof (Z.div_mod a 4) as Hdm.
  pose proof (Z.mod_pos_bound a 4) as Hmod.
  assert (Hq : 0 <= a / 4 < 4) by lia.
  assert (Hr : 0 <= a mod 4 < 4) by lia.
  split; [exact Hq |]. split; [exact Hr |]. split.
  - rewrite compose_bram_address_valid by assumption. lia.
  - intros bank_idx element_idx Hb He Heq.
    destruct (compose_bram_address_decode bank_idx element_idx Hb He) as [B E].
    rewrite Heq in B, E. unfold ELEMENT_INDEX_BITS in B, E.
    rewrite Z.shiftr_div_pow2 in B by lia. rewrite Z.land_ones in E by lia.
    change (2 ^ 2) with 4 in B, E. split; symmetry; assumption.
Qed.

(** X3. For every column index in [0,4) and whatever the matrix holds, the
    address word the column loader stores has in slot [row] the address
    composed with bank index [row] and element index [column_index], that is
    [column_index | (row << 2)]; as a number it is
    [0xC840 + 0x1111 * column_index], so its upper 48 bits are zero. *)
Theorem column_address_word_fields (addr data : Z) (m : matrix) (column_index : Z) (d : D) :
  0 <= column_index < 4 ->
  exists address_word data_word,
    stores (trace (load_matrix_A_column addr data m column_index d))
    = [Store uint64_t addr address_word; Store uint64_t data data_word]
    /\ address_word = 0xC840 + 0x1111 * column_index
    /\ forall row, 0 <= row < 4 ->
         Z.land (Z.shiftr address_word (row * ADDR_BITS)) (Z.ones ADDR_BITS)
         = compose_bram_address row column_index
         /\ compose_bram_address row column_index
            = Z.lor column_index (Z.shiftl row 2).
Proof.
  intros Hc.
  exists (fst (load_matrix_A_column_loop m column_index)),
         (snd (load_matrix_A_column_loop m column_index)).
  split; [apply load_matrix_A_column_stores; unfold MATRIX_DIM; lia |].
  rewrite load_matrix_A_column_loop_addr by exact Hc.
  split; [each_index column_index Hc; reflexivity |].
  intros row Hrow. split.
  - change (field ADDR_BITS (address_fields column_index) row
            = compose_bram_address row column_index).
    unfold address_fields. rewrite field_packed;
      try (apply compose_bram_address_field; lia); try (unfold ADDR_BITS; lia).
    each_index row Hrow; reflexivity.
  - apply compose_bram_address_uint8; lia.
Qed.

(** X4. A load with a valid index makes four register accesses between its
    first and its last line of the log: it stores the address word, then the
    data word, and then loads the address register and the data register back,
    once each; the two values it logs as "Bram address" and "Bram data" are
    the 64-bit values those loads returned, whatever was stored. *)
Theorem valid_load_reads_back (addr data : Z) (m : matrix) (index : Z) (d : D) :
  0 <= index < 4 ->
  (exists v1 v2,
     (0 <= v1 < 2 ^ 64 /\ 0 <= v2 < 2 ^ 64)
     /\ result (load_matrix_A_column addr data m index d) = Some tt
     /\ trace (load_matrix_A_column addr data m index d)
        = [Printf "Loading column %u of Matrix A into BRAM...\n" [index];
           Store W64 addr (fst (load_matrix_A_column_loop m index));
           Store W64 data (snd (load_matrix_A_column_loop m index));
           Load W64 addr v1;
           Printf " Bram address : %llu\n" [v1];
           Load W64 data v2;
           Printf " Bram data : %llu\n" [v2];
           Printf "Finish loading col %u of Matrix A into BRAM...\n" [index];
           Printf "------------------------------------------------------------- \n" []])
  /\ (exists v1 v2,
        (0 <= v1 < 2 ^ 64 /\ 0 <= v2 < 2 ^ 64)
        /\ result (load_matrix_B_row addr data m index d) = Some tt
        /\ trace (load_matrix_B_row addr data m index d)
           = [Printf "Loading row %u of Matrix B into BRAM...\n" [index];
              Store W64 addr (fst (load_matrix_B_row_loop m index));
              Store W64 data (snd (load_matrix_B_row_loop m index));
              Load W64 addr v1;
              Printf " Bram address : %llu\n" [v1];
              Load W64 data v2;
              Printf " Bram data : %llu\n" [v2];
              Printf " Finish loading row %u of Matrix B into BRAM...\n" [index];
              Printf "------------------------------------------------------------- \n" []]).
Proof.
  intros Hi. split.
  - destruct (load_matrix_A_column_trace addr data m index d)
      as (v1 & v2 & Hv & Ht); [unfold MATRIX_DIM; lia |].
    exists v1, v2. split; [exact Hv |]. split; [| exact Ht].
    apply total_unit, total_load_matrix_A_column.
  - destruct (load_matrix_B_row_trace addr data m index d)
      as (v1 & v2 & Hv & Ht); [unfold MATRIX_DIM; lia |].
    exists v1, v2. split; [exact Hv |]. split; [| exact Ht].
    apply total_unit, total_load_matrix_B_row.
Qed.

(** X5. [main] never passes an invalid index to a loader: whatever the
    device does and however long the poll lasts, no line of its log is an
    error report. *)
Theorem main_reports_no_error (fuel : nat) (d : D) :
  Forall (fun e => is_error_report e = false) (trace (main fuel d)).
Proof.
  unfold main. repeat run_block.
  match goal with
  | |- context [main_poll fuel ?p ?d0] =>
      destruct (main_poll_trace fuel p d0) as (vs & Hpoll);
      rewrite Hpoll; destruct (result (main_poll fuel p d0))
  end.
  - match goal with
    | |- context [main_read_results ?ca ?cd ?d1] =>
        destruct (main_read_results_trace ca cd d1) as (ps & _ & _ & Hread);
        rewrite Hread
    end.
    each_trace; try reflexivity.
    + apply main_load_A_no_error.
    + apply main_load_B_no_error.
    + apply Forall_map, Forall_forall. reflexivity.
    + apply Forall_flat_map, Forall_forall. intros iv _.
      unfold result_line. each_trace; reflexivity.
  - each_trace; try reflexivity.
    + apply main_load_A_no_error.
    + apply main_load_B_no_error.
    + apply Forall_map, Forall_forall. reflexivity.
Qed.

(** X6. Every register access of [main] is one of these: a 64-bit store to
    or load from one of the four operand registers, the 32-bit store of 0x3
    to the control register, a 32-bit load of the status register, the 32-bit
    store of an index below 16 to the C-address register, or a 32-bit load of
    the C-data register. So it touches no address outside the eight
    registers, never loads the control or the C-address register, and never
    stores to the status or the C-data register. *)
Theorem main_register_use (fuel : nat) (d : D) :
  Forall register_use (mmio (trace (main fuel d))).
Proof.
  destruct (main_blocks fuel d) as (dA & dB & Hm & _). cbv zeta in Hm.
  rewrite Hm.
  destruct (main_poll_trace fuel (MM_BASE + ADDR_STATUS_OFFSET) dB) as (vs & Hpoll).
  rewrite Hpoll, mmio_loads.
  destruct (result (main_poll fuel (MM_BASE + ADDR_STATUS_OFFSET) dB)).
  - match goal with
    | |- context [main_read_results ?ca ?cd ?d1] =>
        destruct (main_read_results_mmio ca cd d1) as (ps & Hidx & Hread);
        rewrite Hread
    end.
    each_trace.
    + apply main_load_A_register_use.
    + apply main_load_B_register_use.
    + right. left. repeat split.
    + apply Forall_map, Forall_forall. intros v _. right. left. split; reflexivity.
    + apply Forall_flat_map.
      eapply Forall_impl; [| apply (Forall_row_major_range ps Hidx)].
      intros iv Hiv. unfold round_trip. each_trace.
      * right. right. repeat split; apply Hiv.
      * right. right. split; reflexivity.
  - each_trace.
    + apply main_load_A_register_use.
    + apply main_load_B_register_use.
    + right. left. repeat split.
    + apply Forall_map, Forall_forall. intros v _. right. left. split; reflexivity.
Qed.

(** X7. A run of [main] that gets past the poll ends its trace with the 16
    result lines and the closing line: for the indices 0, 1, ..., 15 in turn,
    the index is stored to the C-address register, the C-data register is
    loaded, and the 32-bit value just loaded is printed (in decimal and in
    hexadecimal) as [C[index / 4][index mod 4]]. *)
Theorem results_logged_as_read (fuel : nat) (d : D) :
  result (main fuel d) <> None ->
  exists before ps,
    trace (main fuel d)
    = before
      ++ flat_map (fun iv =>
                     [Store W32 (MM_BASE + ADDR_C_ADDR_OFFSET) (fst iv);
                      Load W32 (MM_BASE + ADDR_C_DATA_OFFSET) (snd iv);
                      Printf "C[%d][%d] = %u (0x%X)\n"
                             [fst iv / 4; fst iv mod 4; snd iv; snd iv]]) ps
      ++ [Printf "\nNios II application finished.\n" []]
    /\ map fst ps = [0; 1; 2; 3; 4; 5; 6; 7; 8; 9; 10; 11; 12; 13; 14; 15]
    /\ Forall (fun iv => 0 <= snd iv < 2 ^ 32) ps.
Proof.
  rewrite main_result. unfold main, poll_start. repeat run_block.
  rewrite !trigger_value.
  match goal with
  | |- context [result ?o] => destruct (result o); [intros _ | congruence]
  end.
  match goal with
  | |- context [main_read_results ?ca ?cd ?d1] =>
      destruct (main_read_results_trace ca cd d1) as (ps & Hidx & Hrange & Hread);
      rewrite Hread
  end.
  rewrite app_nil_r, !app_assoc.
  match goal with
  | |- exists _ _, (?b ++ _) ++ _ = _ /\ _ => exists b, ps
  end.
  split; [symmetry; apply app_assoc |].
  split; [rewrite Hidx; reflexivity | exact Hrange].
Qed.

(** The loop budget of the model is not a property of the program: a
    run of [main] that returned under some budget is, event for event and
    device state for device state, the run under any larger budget. *)
Theorem main_budget_irrelevant (fuel fuel' : nat) (d : D) :
  result (main fuel d) <> None ->
  (fuel <= fuel')%nat ->
  main fuel' d = main fuel d.
Proof.
  intros Hret Hle. apply main_depends_on_poll.
  rewrite main_result in Hret.
  destruct (main_poll_run fuel (MM_BASE + ADDR_STATUS_OFFSET) (poll_start d))
    as (n & Hn & _ & _ & _ & Hres).
  destruct (result (main_poll fuel (MM_BASE + ADDR_STATUS_OFFSET) (poll_start d)));
    [| congruence].
  destruct Hres as (_ & _ & _ & Hmono). apply Hmono. lia.
Qed.

(** X8. [main] returns 0 as soon as the device is done: if, counted from
    the state the trigger leaves the device in, the answer number [n] (from 0)
    of the device to a load of the status register has bit 0 set, then under
    every budget of at least [n+1] rounds [main] returns 0, and all those runs
    are the same run. *)
Theorem main_returns_when_done (n fuel : nat) (d : D) :
  Z.testbit (nth n (answers (S n) (MM_BASE + ADDR_STATUS_OFFSET) (poll_start d)) 0) 0
  = true ->
  (S n <= fuel)%nat ->
  result (main fuel d) = Some 0 /\ main fuel d = main (S n) d.
Proof.
  intros Hdone Hle.
  pose proof (main_poll_complete n _ _ Hdone) as Hpoll.
  assert (Hret : result (main (S n) d) = Some 0).
  { rewrite main_result.
    destruct (result (main_poll (S n) (MM_BASE + ADDR_STATUS_OFFSET) (poll_start d)));
      [reflexivity | congruence]. }
  assert (Heq : main fuel d = main (S n) d).
  { apply main_depends_on_poll.
    destruct (main_poll_run (S n) (MM_BASE + ADDR_STATUS_OFFSET) (poll_start d))
      as (k & Hk & _ & _ & _ & Hres).
    destruct (result (main_poll (S n) (MM_BASE + ADDR_STATUS_OFFSET) (poll_start d)));
      [| congruence].
    destruct Hres as (_ & _ & _ & Hmono). apply Hmono. lia. }
  split; [rewrite Heq; exact Hret | exact Heq].
Qed.

End Controller.

Arguments Outcome {D A}.
Arguments result {D A}.
Arguments final {D A}.
Arguments trace {D A}.

(** * Concrete runs

    The claims at the sample matrices, on the device that is done at the
    first poll, with the registers at base address 0. *)

Lemma column_data_word_fields_witness :
  matrix_ok [[1; 2; 3; 4]; [5; 6; 7; 8]; [9; 10; 11; 12]; [13; 14; 15; 16]] = true
  /\ 0 <= 1 < 4
  /\ (exists address_word data_word,
        stores (trace (load_matrix_A_column unit ready_load ready_store 0x20 0x28
                         [[1; 2; 3; 4]; [5; 6; 7; 8]; [9; 10; 11; 12]; [13; 14; 15; 16]] 1 tt))
        = [Store uint64_t 0x20 address_word; Store uint64_t 0x28 data_word]
        /\ 0 <= data_word < 2 ^ (4 * 16)
        /\ forall row, 0 <= row < 4 ->
             Z.land (Z.shiftr data_word (row * 16)) (Z.ones 16)
             = nth (Z.to_nat 1)
                   (nth (Z.to_nat row) [[1; 2; 3; 4]; [5; 6; 7; 8]; [9; 10; 11; 12]; [13; 14; 15; 16]] []) 0)
  /\ stores (trace (load_matrix_A_column unit ready_load ready_store 0x20 0x28
                      [[1; 2; 3; 4]; [5; 6; 7; 8]; [9; 10; 11; 12]; [13; 14; 15; 16]] 1 tt))
     = [Store uint64_t 0x20 0xD951;
        Store uint64_t 0x28 (2 + 6 * 2 ^ 16 + 10 * 2 ^ 32 + 14 * 2 ^ 48)].
Proof.
  split; [reflexivity |]. split; [lia |]. split.
  - apply (column_data_word_fields unit ready_load ready_store
                                   0x20 0x28 matrix_A 1 tt);
      [reflexivity | lia].
  - vm_compute. reflexivity.
Defined.

Lemma row_words_fields_witness :
  matrix_ok [[16; 15; 14; 13]; [12; 11; 10; 9]; [8; 7; 6; 5]; [4; 3; 2; 1]] = true
  /\ 0 <= 2 < 4
  /\ (exists address_word data_word,
        stores (trace (load_matrix_B_row unit ready_load ready_store 0x30 0x38
                         [[16; 15; 14; 13]; [12; 11; 10; 9]; [8; 7; 6; 5]; [4; 3; 2; 1]] 2 tt))
        = [Store uint64_t 0x30 address_word; Store uint64_t 0x38 data_word]
        /\ forall col, 0 <= col < 4 ->
             Z.land (Z.shiftr address_word (col * ADDR_BITS)) (Z.ones ADDR_BITS)
             = compose_bram_address col 2
             /\ compose_bram_address col 2 = Z.lor 2 (Z.shiftl col 2)
             /\ Z.land (Z.shiftr data_word (col * 16)) (Z.ones 16)
                = nth (Z.to_nat col)
                      (nth (Z.to_nat 2) [[16; 15; 14; 13]; [12; 11; 10; 9]; [8; 7; 6; 5]; [4; 3; 2; 1]] []) 0)
  /\ stores (trace (load_matrix_B_row unit ready_load ready_store 0x30 0x38
                      [[16; 15; 14; 13]; [12; 11; 10; 9]; [8; 7; 6; 5]; [4; 3; 2; 1]] 2 tt))
     = [Store uint64_t 0x30 0xEA62;
        Store uint64_t 0x38 (8 + 7 * 2 ^ 16 + 6 * 2 ^ 32 + 5 * 2 ^ 48)].
Proof.
  split; [reflexivity |]. split; [lia |]. split.
  - apply (row_words_fields unit ready_load ready_store 0x30 0x38 matrix_B 2 tt);
      [reflexivity | lia].
  - vm_compute. reflexivity.
Defined.

Lemma compose_bram_address_value_witness :
  0 <= 3 < 4
  /\ 0 <= 1 < 4
  /\ compose_bram_address 3 1 = Z.lor 1 (Z.shiftl 3 2)
  /\ 0 <= compose_bram_address 3 1 < 2 ^ 4.
Proof.
  split; [lia |]. split; [lia |].
  apply (compose_bram_address_value 3 1); lia.
Defined.

(** The address word claimed for column 0 of the sample matrix A, with the
    bank index itself in each slot, is not the one the loader stores. *)
Lemma sample_column_0_claimed_words_differ :
  stores (trace (load_matrix_A_column unit ready_load ready_store
                                      0x20 0x28 matrix_A 0 tt))
  <> [Store uint64_t 0x20
            (Z.lor 0 (Z.lor (Z.shiftl 1 4) (Z.lor (Z.shiftl 2 8) (Z.shiftl 3 12))));
      Store uint64_t 0x28
            (Z.lor 1 (Z.lor (Z.shiftl 5 16) (Z.lor (Z.shiftl 9 32) (Z.shiftl 13 48))))].
Proof. vm_compute. discriminate. Qed.

Lemma invalid_index_reported_witness :
  4 <= 4
  /\ let report :=
       Printf "Error: Column index %u out of bounds for Matrix A.\n" [4] in
     load_matrix_A_column unit ready_load ready_store 0x20 0x28 matrix_A 4 tt
     = Outcome (Some tt) tt [report]
     /\ load_matrix_B_row unit ready_load ready_store 0x20 0x28 matrix_A 4 tt
        = Outcome (Some tt) tt [report]
     /\ mmio [report] = []
     /\ forall (B : Type) (rest : io unit B),
          bind unit (load_matrix_A_column unit ready_load ready_store
                                          0x20 0x28 matrix_A 4)
               (fun _ => rest) tt
          = Outcome (result (rest tt)) (final (rest tt))
                    (report :: trace (rest tt))
          /\ bind unit (load_matrix_B_row unit ready_load ready_store
                                          0x20 0x28 matrix_A 4)
                  (fun _ => rest) tt
             = Outcome (result (rest tt)) (final (rest tt))
                       (report :: trace (rest tt)).
Proof.
  split; [lia |].
  apply (invalid_index_reported unit ready_load ready_store
                                0x20 0x28 matrix_A 4 tt).
  lia.
Defined.

(** The one store to the control register in a run of [main] is not a
    64-bit access. *)
Lemma control_store_is_not_64_bit :
  filter (is_store_to (0 + ADDR_CONTROL_OFFSET))
         (trace (main unit ready_load ready_store 0 1 tt))
  <> [Store W64 (0 + ADDR_CONTROL_OFFSET) 0x3].
Proof. vm_compute. discriminate. Qed.

Lemma results_read_row_major_witness :
  result (main unit ready_load ready_store 0 1 tt) <> None
  /\ exists before ps,
       mmio (trace (main unit ready_load ready_store 0 1 tt))
       = before
         ++ flat_map (fun iv => [Store W32 (0 + ADDR_C_ADDR_OFFSET) (fst iv);
                                 Load W32 (0 + ADDR_C_DATA_OFFSET) (snd iv)]) ps
       /\ map fst ps
          = flat_map (fun row => map (fun col => row * 4 + col) [0; 1; 2; 3])
                     [0; 1; 2; 3]
       /\ map fst ps = [0; 1; 2; 3; 4; 5; 6; 7; 8; 9; 10; 11; 12; 13; 14; 15]
       /\ Forall (fun e => accesses (0 + ADDR_C_ADDR_OFFSET) e = false
                           /\ accesses (0 + ADDR_C_DATA_OFFSET) e = false) before.
Proof.
  split; [vm_compute; discriminate |].
  apply (results_read_row_major unit ready_load ready_store 0 1 tt).
  vm_compute. discriminate.
Defined.

Lemma compose_bram_address_injective_witness :
  0 <= 1 < 4 /\ 0 <= 2 < 4 /\ 0 <= 2 < 4 /\ 0 <= 1 < 4
  /\ (1, 2) <> (2, 1)
  /\ compose_bram_address 1 2 <> compose_bram_address 2 1.
Proof.
  repeat (split; [lia |]). split; [discriminate |].
  apply (compose_bram_address_injective 1 2 2 1); try lia. discriminate.
Defined.

Lemma loaders_share_address_word_witness :
  0 <= 3 < 4
  /\ exists address_word data_word_A data_word_B,
       stores (trace (load_matrix_A_column unit ready_load ready_store 0x20 0x28
                        [[1; 2; 3; 4]; [5; 6; 7; 8]; [9; 10; 11; 12]; [13; 14; 15; 16]] 3 tt))
       = [Store uint64_t 0x20 address_word; Store uint64_t 0x28 data_word_A]
       /\ stores (trace (load_matrix_B_row unit ready_load ready_store 0x30 0x38
                           [[16; 15; 14; 13]; [12; 11; 10; 9]; [8; 7; 6; 5]; [4; 3; 2; 1]] 3 tt))
          = [Store uint64_t 0x30 address_word; Store uint64_t 0x38 data_word_B]
       /\ address_word
          = fold_left Z.lor
              (map (fun s => Z.shiftl (Z.lor 3 (Z.shiftl s 2)) (s * 4)) [0; 1; 2; 3]) 0
       /\ address_word = 0xC840 + 0x1111 * 3
       /\ (matrix_ok [[1; 2; 3; 4]; [5; 6; 7; 8]; [9; 10; 11; 12]; [13; 14; 15; 16]] = true ->
           forall s, 0 <= s < 4 ->
             Z.land (Z.shiftr data_word_A (s * 16)) (Z.ones 16)
             = nth (Z.to_nat 3)
                   (nth (Z.to_nat s) [[1; 2; 3; 4]; [5; 6; 7; 8]; [9; 10; 11; 12]; [13; 14; 15; 16]] []) 0)
       /\ (matrix_ok [[16; 15; 14; 13]; [12; 11; 10; 9]; [8; 7; 6; 5]; [4; 3; 2; 1]] = true ->
           forall s, 0 <= s < 4 ->
             Z.land (Z.shiftr data_word_B (s * 16)) (Z.ones 16)
             = nth (Z.to_nat s)
                   (nth (Z.to_nat 3) [[16; 15; 14; 13]; [12; 11; 10; 9]; [8; 7; 6; 5]; [4; 3; 2; 1]] []) 0)
       /\ (forall mT : matrix,
             (forall r c, 0 <= r < 4 -> 0 <= c < 4 ->
                nth (Z.to_nat c) (nth (Z.to_nat r) mT []) 0
                = nth (Z.to_nat r)
                      (nth (Z.to_nat c) [[1; 2; 3; 4]; [5; 6; 7; 8]; [9; 10; 11; 12]; [13; 14; 15; 16]] []) 0) ->
             mmio (trace (load_matrix_B_row unit ready_load ready_store 0x20 0x28
                            mT 3 tt))
             = mmio (trace (load_matrix_A_column unit ready_load ready_store 0x20 0x28
                              [[1; 2; 3; 4]; [5; 6; 7; 8]; [9; 10; 11; 12]; [13; 14; 15; 16]] 3 tt)))
       /\ (forall mT : matrix,
             (forall r c, 0 <= r < 4 -> 0 <= c < 4 ->
                nth (Z.to_nat c) (nth (Z.to_nat r) mT []) 0
                = nth (Z.to_nat r)
                      (nth (Z.to_nat c) [[16; 15; 14; 13]; [12; 11; 10; 9]; [8; 7; 6; 5]; [4; 3; 2; 1]] []) 0) ->
             mmio (trace (load_matrix_A_column unit ready_load ready_store 0x30 0x38
                            mT 3 tt))
             = mmio (trace (load_matrix_B_row unit ready_load ready_store 0x30 0x38
                              [[16; 15; 14; 13]; [12; 11; 10; 9]; [8; 7; 6; 5]; [4; 3; 2; 1]] 3 tt))).
Proof.
  split; [lia |].
  apply (loaders_share_address_word unit ready_load ready_store
           0x20 0x28 0x30 0x38 matrix_A matrix_B 3 tt tt).
  lia.
Defined.

(** The poll on the device that needs five loads before it is done: a budget
    of three rounds leaves it polling, and any budget from six rounds up sees
    it return at the sixth load. *)
Example poll_outlasts_budget :
  main_poll nat slow_load 3 (0 + ADDR_STATUS_OFFSET) 5%nat
  = Outcome None 2%nat (map (Load W32 0x08) [0; 0; 0]).
Proof. reflexivity. Qed.

Example poll_returns_on_done_bit :
  main_poll nat slow_load 9 (0 + ADDR_STATUS_OFFSET) 5%nat
  = Outcome (Some 0xFFFFFFFF) 0%nat
            (map (Load W32 0x08) [0; 0; 0; 0; 0; 0xFFFFFFFF]).
Proof. reflexivity. Qed.

(** * Concrete runs of the further properties

    On the same device as above, and on the one that needs [n] loads before
    it is done: started at 18, it is done at the third poll, the read-backs
    of the eight loads having used up 16. *)

Lemma compose_bram_address_unmasked_witness :
  0 <= 200 < 256
  /\ 0 <= 77 < 256
  /\ compose_bram_address 200 77 = Z.lor 77 (Z.shiftl 200 2)
  /\ 0 <= compose_bram_address 200 77 < 2 ^ 10
  /\ (compose_bram_address 200 77 < 2 ^ ADDR_BITS <-> 200 < 4 /\ 77 < 16).
Proof.
  split; [lia |]. split; [lia |].
  apply (compose_bram_address_unmasked 200 77); lia.
Defined.

Lemma compose_bram_address_inverse_witness :
  0 <= 13 < 16
  /\ 0 <= Z.shiftr 13 ELEMENT_INDEX_BITS < 4
  /\ 0 <= Z.land 13 (Z.ones ELEMENT_INDEX_BITS) < 4
  /\ compose_bram_address (Z.shiftr 13 ELEMENT_INDEX_BITS)
                          (Z.land 13 (Z.ones ELEMENT_INDEX_BITS)) = 13
  /\ forall bank_idx element_idx,
       0 <= bank_idx < 4 -> 0 <= element_idx < 4 ->
       compose_bram_address bank_idx element_idx = 13 ->
       bank_idx = Z.shiftr 13 ELEMENT_INDEX_BITS
       /\ element_idx = Z.land 13 (Z.ones ELEMENT_INDEX_BITS).
Proof.
  split; [lia |].
  apply (compose_bram_address_inverse 13). lia.
Defined.

Lemma column_address_word_fields_witness :
  0 <= 2 < 4
  /\ exists address_word data_word,
       stores (trace (load_matrix_A_column unit ready_load ready_store
                                           0x20 0x28 matrix_A 2 tt))
       = [Store uint64_t 0x20 address_word; Store uint64_t 0x28 data_word]
       /\ address_word = 0xC840 + 0x1111 * 2
       /\ forall row, 0 <= row < 4 ->
            Z.land (Z.shiftr address_word (row * ADDR_BITS)) (Z.ones ADDR_BITS)
            = compose_bram_address row 2
            /\ compose_bram_address row 2 = Z.lor 2 (Z.shiftl row 2).
Proof.
  split; [lia |].
  apply (column_address_word_fields unit ready_load ready_store
                                    0x20 0x28 matrix_A 2 tt).
  lia.
Defined.

Lemma valid_load_reads_back_witness :
  0 <= 3 < 4
  /\ (exists v1 v2,
        (0 <= v1 < 2 ^ 64 /\ 0 <= v2 < 2 ^ 64)
        /\ result (load_matrix_A_column nat slow_load slow_store
                                        0x20 0x28 matrix_A 3 1%nat) = Some tt
        /\ trace (load_matrix_A_column nat slow_load slow_store
                                       0x20 0x28 matrix_A 3 1%nat)
           = [Printf "Loading column %u of Matrix A into BRAM...\n" [3];
              Store W64 0x20 (fst (load_matrix_A_column_loop matrix_A 3));
              Store W64 0x28 (snd (load_matrix_A_column_loop matrix_A 3));
              Load W64 0x20 v1;
              Printf " Bram address : %llu\n" [v1];
              Load W64 0x28 v2;
              Printf " Bram data : %llu\n" [v2];
              Printf "Finish loading col %u of Matrix A into BRAM...\n" [3];
              Printf "------------------------------------------------------------- \n" []])
  /\ (exists v1 v2,
        (0 <= v1 < 2 ^ 64 /\ 0 <= v2 < 2 ^ 64)
        /\ result (load_matrix_B_row nat slow_load slow_store
                                     0x20 0x28 matrix_A 3 1%nat) = Some tt
        /\ trace (load_matrix_B_row nat slow_load slow_store
                                    0x20 0x28 matrix_A 3 1%nat)
           = [Printf "Loading row %u of Matrix B into BRAM...\n" [3];
              Store W64 0x20 (fst (load_matrix_B_row_loop matrix_A 3));
              Store W64 0x28 (snd (load_matrix_B_row_loop matrix_A 3));
              Load W64 0x20 v1;
              Printf " Bram address : %llu\n" [v1];
              Load W64 0x28 v2;
              Printf " Bram data : %llu\n" [v2];
              Printf " Finish loading row %u of Matrix B into BRAM...\n" [3];
              Printf "------------------------------------------------------------- \n" []]).
Proof.
  split; [lia |].
  apply (valid_load_reads_back nat slow_load slow_store 0x20 0x28 matrix_A 3 1%nat).
  lia.
Defined.

Lemma results_logged_as_read_witness :
  result (main unit ready_load ready_store 0 1 tt) <> None
  /\ exists before ps,
       trace (main unit ready_load ready_store 0 1 tt)
       = before
         ++ flat_map (fun iv =>
                        [Store W32 (0 + ADDR_C_ADDR_OFFSET) (fst iv);
                         Load W32 (0 + ADDR_C_DATA_OFFSET) (snd iv);
                         Printf "C[%d][%d] = %u (0x%X)\n"
                                [fst iv / 4; fst iv mod 4; snd iv; snd iv]]) ps
         ++ [Printf "\nNios II application finished.\n" []]
       /\ map fst ps = [0; 1; 2; 3; 4; 5; 6; 7; 8; 9; 10; 11; 12; 13; 14; 15]
       /\ Forall (fun iv => 0 <= snd iv < 2 ^ 32) ps.
Proof.
  split; [vm_compute; discriminate |].
  apply (results_logged_as_read unit ready_load ready_store 0 1 tt).
  vm_compute. discriminate.
Defined.

Lemma main_budget_irrelevant_witness :
  result (main nat slow_load slow_store 0 3 18%nat) <> None
  /\ (3 <= 7)%nat
  /\ main nat slow_load slow_store 0 7 18%nat
     = main nat slow_load slow_store 0 3 18%nat.
Proof.
  split; [vm_compute; discriminate |]. split; [lia |].
  apply (main_budget_irrelevant nat slow_load slow_store 0 3 7 18%nat);
    [vm_compute; discriminate | lia].
Defined.

Lemma main_returns_when_done_witness :
  Z.testbit
    (nth 2 (answers nat slow_load 3 (0 + ADDR_STATUS_OFFSET)
                    (poll_start nat slow_load slow_store 0 18%nat)) 0) 0
  = true
  /\ (3 <= 5)%nat
  /\ result (main nat slow_load slow_store 0 5 18%nat) = Some 0
  /\ main nat slow_load slow_store 0 5 18%nat
     = main nat slow_load slow_store 0 3 18%nat.
Proof.
  split; [vm_compute; reflexivity |]. split; [lia |].
  apply (main_returns_when_done nat slow_load slow_store 0 2 5 18%nat);
    [vm_compute; reflexivity | lia].
Defined.
